(** * AC-3 and forward-checking search for 9x9 Sudoku (src/ac3.py)

    A shallow embedding of the propagation-and-search engine of
    [src/ac3.py] and the proofs of its specification.

    Modelling conventions.
    - A Python [set] of digits is a [gset Z].  Each cell owns its own set
      object, so an in-place [remove]/[add] on [csp.domains[r][c]] is an
      update of the store at [(r, c)].
    - [csp.domains] is a list of rows, each a list of domains; indexing
      outside the list raises [IndexError], [set.remove] of an absent
      value raises [KeyError].
    - The iteration order of a Python set is not fixed by the language:
      it is a parameter ([set_iter]) of the development.
    - [csp.neighbors] and [csp.get_all_arcs()] come from [csp.py], which is
      not part of the sources; they are parameters ([NeighborIndex]) that
      satisfy what the specification says of them.
    - [print] calls have no effect on the store and are left out. *)

From stdpp Require Import base list gmap sets fin_sets sorting.

#[local] Set Warnings "-clear-no-such-hyp".



(** ** Data model *)

(** A cell is a coordinate pair [(row, col)]. *)
Definition Cell : Type := nat * nat.
(** A domain is the set of candidate digits of a cell. *)
Abbreviation Domain := (gset Z).
(** The domain store [csp.domains]: a list of rows of domains. *)
Abbreviation Store := (list (list Domain)).
(** An arc [(xi, xj)]: [xi] may need revision because of [xj]. *)
Definition Arc : Type := Cell * Cell.

Definition valid_cell (c : Cell) : Prop := c.1 < 9 ∧ c.2 < 9.

#[global] Instance valid_cell_dec c : Decision (valid_cell c).
Proof. unfold valid_cell. apply _. Defined.

(** The store has nine rows of nine domains. *)
Definition wf_store (s : Store) : Prop :=
  length s = 9 ∧ Forall (λ row, length row = 9) s.

#[global] Instance wf_store_dec s : Decision (wf_store s).
Proof. unfold wf_store. apply _. Defined.

(** [for row in range(9): for col in range(9)]: the cells in row-major
    order. *)
Definition all_cells : list Cell :=
  r ← seq 0 9; c ← seq 0 9; [(r, c)].

(** ** Exceptions and the state monad of the solver *)

Inductive error : Type :=
  | IndexError   (* list index out of range *)
  | KeyError     (* set.remove of an absent element *)
  | OutOfFuel.   (* the bound on loop iterations / recursion depth of the
                    model was reached; not a Python exception *)

Inductive result (A : Type) : Type :=
  | Ok (a : A)
  | Raise (e : error).
Arguments Ok {A} a.
Arguments Raise {A} e.

(** A computation reads and mutates the shared store, and may raise. *)
Definition M (A : Type) : Type := Store → result (A * Store).

Definition ret {A} (a : A) : M A := λ s, Ok (a, s).
Definition raise {A} (e : error) : M A := λ _, Raise e.
Definition bind {A B} (m : M A) (k : A → M B) : M B := λ s,
  match m s with
  | Ok (a, s') => k a s'
  | Raise e => Raise e
  end.

(** What a run returned, and the store it left. *)
Definition value_of {A} (r : result (A * Store)) : option A :=
  match r with
  | Ok (a, _) => Some a
  | Raise _ => None
  end.

Definition store_of {A} (r : result (A * Store)) : Store :=
  match r with
  | Ok (_, s) => s
  | Raise _ => []
  end.

#[global] Instance M_ret : MRet M := @ret.
#[global] Instance M_bind : MBind M := λ A B k m, bind m k.

(** ** Access to [csp.domains] *)

(** The content of a cell's domain, [∅] outside the grid (specification
    side; the code uses [get_domain]). *)
Definition dom (s : Store) (c : Cell) : Domain :=
  default ∅ (s !! c.1 ≫= λ row, row !! c.2).

(** [csp.domains[r][c] = d] as a pure store update. *)
Definition upd (s : Store) (c : Cell) (d : Domain) : Store :=
  <[c.1 := <[c.2 := d]> (default [] (s !! c.1))]> s.

(** [csp.domains[r][c]] *)
Definition get_domain (c : Cell) : M Domain := λ s,
  match s !! c.1 with
  | Some row =>
      match row !! c.2 with
      | Some d => Ok (d, s)
      | None => Raise IndexError
      end
  | None => Raise IndexError
  end.

(** [csp.domains[r][c] = d] *)
Definition set_domain (c : Cell) (d : Domain) : M unit := λ s,
  match s !! c.1 with
  | Some row =>
      if decide (c.2 < length row) then Ok ((), upd s c d)
      else Raise IndexError
  | None => Raise IndexError
  end.

(** [csp.domains[r][c].remove(v)] *)
Definition domain_remove (c : Cell) (v : Z) : M unit :=
  d ← get_domain c;
  if decide (v ∈ d) then set_domain c (d ∖ {[v]}) else raise KeyError.

(** [csp.domains[r][c].add(v)] *)
Definition domain_add (c : Cell) (v : Z) : M unit :=
  d ← get_domain c;
  set_domain c ({[v]} ∪ d).

(** ** Parameters: set iteration order and the neighbor index *)

(** The order in which Python iterates over a set: some enumeration of its
    elements, each once. *)
Class SetOrder : Type := {
  set_iter : Domain → list Z;
  set_iter_perm : ∀ d, set_iter d ≡ₚ elements d;
}.

(** Two distinct cells are peers when they share a row, a column or a 3x3
    box. *)
Definition same_row (a b : Cell) : Prop := a.1 = b.1.
Definition same_col (a b : Cell) : Prop := a.2 = b.2.
Definition same_box (a b : Cell) : Prop :=
  a.1 `div` 3 = b.1 `div` 3 ∧ a.2 `div` 3 = b.2 `div` 3.
Definition peer (a b : Cell) : Prop :=
  a ≠ b ∧ (same_row a b ∨ same_col a b ∨ same_box a b).

#[global] Instance peer_dec a b : Decision (peer a b).
Proof. unfold peer, same_row, same_col, same_box. apply _. Defined.

(** Modelled from the spec: [csp.neighbors] and [csp.get_all_arcs()] are
    built by [csp.py], which is missing.  The neighbor list of a cell holds
    exactly its row, column and box peers (itself excluded), in some order;
    the arcs are all ordered neighbor pairs, in some order. *)
Class NeighborIndex : Type := {
  neighbors : Cell → list Cell;
  get_all_arcs : list Arc;
  neighbors_spec : ∀ c c',
    valid_cell c → c' ∈ neighbors c ↔ valid_cell c' ∧ peer c c';
  get_all_arcs_spec : ∀ xi xj,
    (xi, xj) ∈ get_all_arcs ↔ valid_cell xi ∧ xj ∈ neighbors xi;
}.

(** ** [sorted(iterable, key=...)]

    Python's [sorted] computes the key of every element once, in iteration
    order, and sorts stably by key.  A stable sort has one possible result;
    it is computed here by insertion. *)

Fixpoint insert_by_key {A} (x : nat * A) (l : list (nat * A)) : list (nat * A) :=
  match l with
  | [] => [x]
  | y :: l' => if decide (x.1 ≤ y.1) then x :: y :: l' else y :: insert_by_key x l'
  end.

Fixpoint sort_by_key {A} (l : list (nat * A)) : list (nat * A) :=
  match l with
  | [] => []
  | x :: l' => insert_by_key x (sort_by_key l')
  end.

(** ** The solver *)

Section solver.
Context `{!SetOrder, !NeighborIndex}.

(** [csp.neighbors[row][col]] *)
Definition get_neighbors (c : Cell) : M (list Cell) :=
  if decide (valid_cell c) then mret (neighbors c) else raise IndexError.

(** *** [revise] (lines 56-78) *)

(** The loop [for value in xi_domain.copy()]; both domains are read
    through the store, as the code reads them through the set objects. *)
Fixpoint revise_loop (xi xj : Cell) (values : list Z) (revised : bool) : M bool :=
  match values with
  | [] => mret revised
  | value :: rest =>
      xj_domain ← get_domain xj;
      if decide (size xj_domain = 1 ∧ value ∈ xj_domain) then
        domain_remove xi value;;
        revise_loop xi xj rest true
      else revise_loop xi xj rest revised
  end.

Definition revise (xi xj : Cell) : M bool :=
  xi_domain ← get_domain xi;
  _ ← get_domain xj;
  revise_loop xi xj (set_iter xi_domain) false.

(** *** [ac3] (lines 8-51) *)

(** The return statement [ac3] leaves through. *)
Inductive ac3_exit : Type :=
  | ExitEmptyDomain   (* line 28: return False *)
  | ExitSolved        (* line 46: return True *)
  | ExitNotSolved.    (* line 51: return False *)

(** [for xk in csp.neighbors[xi]: if xk != xj: queue.append((xk, xi))] *)
Fixpoint enqueue_neighbors (xi xj : Cell) (nbrs : list Cell) (queue : list Arc) : list Arc :=
  match nbrs with
  | [] => queue
  | xk :: rest =>
      if decide (xk ≠ xj) then enqueue_neighbors xi xj rest (queue ++ [(xk, xi)])
      else enqueue_neighbors xi xj rest queue
  end.

(** [while queue: ...]; the result is [false] when the loop is left by
    the [return False] of line 28 and [true] when the queue is empty. *)
Fixpoint ac3_loop (fuel : nat) (queue : list Arc) : M bool :=
  match queue with
  | [] => mret true
  | (xi, xj) :: queue' =>
      match fuel with
      | 0 => raise OutOfFuel
      | S fuel' =>
          revised ← revise xi xj;
          if revised : bool then
            xi_domain ← get_domain xi;
            if decide (xi_domain = ∅) then mret false
            else
              nbrs ← get_neighbors xi;
              ac3_loop fuel' (enqueue_neighbors xi xj nbrs queue')
          else ac3_loop fuel' queue'
      end
  end.

(** [all(len(csp.domains[row][col]) == 1 for row ... for col ...)] *)
Fixpoint all_singletons (cells : list Cell) : M bool :=
  match cells with
  | [] => mret true
  | c :: rest =>
      d ← get_domain c;
      if decide (size d = 1) then all_singletons rest else mret false
  end.

Definition ac3_run (fuel : nat) : M ac3_exit :=
  finished ← ac3_loop fuel get_all_arcs;
  if finished : bool then
    solved ← all_singletons all_cells;
    if solved : bool then mret ExitSolved else mret ExitNotSolved
  else mret ExitEmptyDomain.

(** The boolean [ac3] returns. *)
Definition ac3_result (e : ac3_exit) : bool :=
  match e with
  | ExitSolved => true
  | ExitEmptyDomain | ExitNotSolved => false
  end.


(** *** [print_solution] (lines 83-89) *)

(** The row [[list(cell)[0] if len(cell) == 1 else 0 for cell in row]]. *)
Definition print_row (row : list Domain) : list Z :=
  (λ cell, if decide (size cell = 1) then default 0%Z (head (set_iter cell))
           else 0%Z) <$> row.

(** [for row in csp.domains: print(...)]: the rows printed, in order. *)
Definition print_solution : M (list (list Z)) :=
  λ s, Ok (print_row <$> s, s).

(** *** [count_constraints] (lines 102-118) *)

Fixpoint count_constraints_loop (nbrs : list Cell) (value : Z) (count : nat) : M nat :=
  match nbrs with
  | [] => mret count
  | neighbor :: rest =>
      d ← get_domain neighbor;
      if decide (1 < size d ∧ value ∈ d) then
        count_constraints_loop rest value (count + 1)
      else count_constraints_loop rest value count
  end.

Definition count_constraints (c : Cell) (value : Z) : M nat :=
  nbrs ← get_neighbors c;
  count_constraints_loop nbrs value 0.

(** *** [order_domain_values] (lines 94-97) *)

(** The keys of the values, computed in iteration order. *)
Fixpoint with_keys (c : Cell) (values : list Z) : M (list (nat * Z)) :=
  match values with
  | [] => mret []
  | val :: rest =>
      k ← count_constraints c val;
      kvs ← with_keys c rest;
      mret ((k, val) :: kvs)
  end.

Definition order_domain_values (c : Cell) : M (list Z) :=
  d ← get_domain c;
  kvs ← with_keys c (set_iter d);
  mret ((sort_by_key kvs).*2).

(** *** [forward_check] (lines 124-149) *)

Fixpoint forward_check_loop (nbrs : list Cell) (value : Z)
    (removed : list (Cell * Z)) : M (bool * list (Cell * Z)) :=
  match nbrs with
  | [] => mret (true, removed)
  | neighbor :: rest =>
      d ← get_domain neighbor;
      if decide (value ∈ d) then
        domain_remove neighbor value;;
        let removed := removed ++ [(neighbor, value)] in
        d' ← get_domain neighbor;
        if decide (d' = ∅) then mret (false, removed)
        else forward_check_loop rest value removed
      else forward_check_loop rest value removed
  end.

Definition forward_check (c : Cell) (value : Z) : M (bool * list (Cell * Z)) :=
  nbrs ← get_neighbors c;
  forward_check_loop nbrs value [].

(** *** [restore_domains] (lines 154-160) *)

Fixpoint restore_domains (removed : list (Cell * Z)) : M unit :=
  match removed with
  | [] => mret ()
  | (c, value) :: rest => domain_add c value;; restore_domains rest
  end.

(** *** [find_empty_cell] (lines 209-231) *)

(** [domain_size < min_len], where [min_len] starts as [float('inf')]
    ([None]). *)
Definition below (n : nat) (min_len : option nat) : Prop :=
  match min_len with
  | None => True
  | Some m => n < m
  end.

#[global] Instance below_dec n m : Decision (below n m).
Proof. destruct m; simpl; apply _. Defined.

Fixpoint find_empty_loop (cells : list Cell) (min_len : option nat)
    (best_cell : option Cell) : M (option Cell) :=
  match cells with
  | [] => mret best_cell
  | c :: rest =>
      d ← get_domain c;
      let domain_size := size d in
      if decide (1 < domain_size ∧ below domain_size min_len) then
        find_empty_loop rest (Some domain_size) (Some c)
      else find_empty_loop rest min_len best_cell
  end.

Definition find_empty_cell : M (option Cell) :=
  find_empty_loop all_cells None None.

(** *** [is_valid] (lines 236-250) *)

Fixpoint is_valid_loop (nbrs : list Cell) (value : Z) : M bool :=
  match nbrs with
  | [] => mret true
  | neighbor :: rest =>
      d ← get_domain neighbor;
      if decide (size d = 1 ∧ value ∈ d) then mret false
      else is_valid_loop rest value
  end.

Definition is_valid (c : Cell) (value : Z) : M bool :=
  nbrs ← get_neighbors c;
  is_valid_loop nbrs value.

(** *** [backtrack] (lines 165-204) *)

(** The loop [for value in order_domain_values(csp, row, col)] of one
    frame; [recurse] is the recursive call [backtrack(csp)]. *)
Fixpoint try_values (recurse : M bool) (c : Cell) (values : list Z) : M bool :=
  match values with
  | [] => mret false
  | value :: rest =>
      valid ← is_valid c value;
      if valid : bool then
        set_domain c {[value]};;
        '(success, removed) ← forward_check c value;
        solved ← (if success : bool then recurse else mret false);
        if solved : bool then mret true
        else
          vals ← order_domain_values c;
          set_domain c (list_to_set vals);;
          restore_domains removed;;
          try_values recurse c rest
      else try_values recurse c rest
  end.

(** [fuel] bounds the recursion depth. *)
Fixpoint backtrack_fuel (fuel : nat) : M bool :=
  match fuel with
  | 0 => raise OutOfFuel
  | S fuel' =>
      emptyCell ← find_empty_cell;
      match emptyCell with
      | None => mret true
      | Some c =>
          values ← order_domain_values c;
          try_values (backtrack_fuel fuel') c values
      end
  end.

End solver.

(** ** Specification-side vocabulary *)

(** [revise(xi, xj)] has something to remove: [xj] is assigned and its
    value is a candidate of [xi]. *)
Definition revisable (s : Store) (xi xj : Cell) : Prop :=
  size (dom s xj) = 1 ∧ dom s xi ∩ dom s xj ≠ ∅.

#[global] Instance revisable_dec s xi xj : Decision (revisable s xi xj).
Proof. unfold revisable. apply _. Defined.

(** The store [revise(xi, xj)] leaves. *)
Definition revise_store (s : Store) (xi xj : Cell) : Store :=
  if decide (size (dom s xj) = 1) then upd s xi (dom s xi ∖ dom s xj) else s.

(** An arc is stable when [revise] has nothing to remove along it. *)
Definition stable (s : Store) (a : Arc) : Prop := ¬ revisable s a.1 a.2.

(** No cell has the value of an assigned peer among its candidates. *)
Definition consistent (s : Store) : Prop :=
  ∀ xi xj, valid_cell xi → valid_cell xj → peer xi xj → stable s (xi, xj).

(** No domain of [s'] holds a value that it did not hold in [s]. *)
Definition shrinks (s s' : Store) : Prop := ∀ c, dom s' c ⊆ dom s c.

(** Values can be removed from [s] until no cell has the value of an
    assigned peer, without taking the last candidate of any cell. *)
Definition propagable (s : Store) : Prop :=
  ∃ t, wf_store t ∧ consistent t ∧ shrinks s t ∧
    ∀ c, dom s c ≠ ∅ → dom t c ≠ ∅.

(** A cell is unassigned when it has more than one candidate. *)
Definition unassigned (s : Store) (c : Cell) : Prop := 1 < size (dom s c).

#[global] Instance unassigned_dec s c : Decision (unassigned s c).
Proof. unfold unassigned. apply _. Defined.

(** [c] is the first cell of [cells] with the fewest candidates among the
    unassigned ones. *)
Definition first_min (s : Store) (cells : list Cell) (c : Cell) : Prop :=
  ∃ pre post, cells = pre ++ c :: post ∧ unassigned s c ∧
    (∀ c', c' ∈ pre → unassigned s c' → size (dom s c) < size (dom s c')) ∧
    (∀ c', c' ∈ post → unassigned s c' → size (dom s c) ≤ size (dom s c')).

(** Row-major order on cells. *)
Definition row_major_lt (a b : Cell) : Prop :=
  a.1 < b.1 ∨ (a.1 = b.1 ∧ a.2 < b.2).

#[global] Instance row_major_lt_dec a b : Decision (row_major_lt a b).
Proof. unfold row_major_lt. apply _. Defined.

(** The constraint score of [v]: the number of listed neighbors that are
    unassigned and have [v] as a candidate. *)
Definition constraint_score (s : Store) (nbrs : list Cell) (v : Z) : nat :=
  length (filter (λ n, unassigned s n ∧ v ∈ dom s n) nbrs).

(** [v] conflicts with no assigned neighbor. *)
Definition conflict_free (s : Store) (nbrs : list Cell) (v : Z) : Prop :=
  Forall (λ n, ¬ (size (dom s n) = 1 ∧ v ∈ dom s n)) nbrs.

#[global] Instance conflict_free_dec s nbrs v : Decision (conflict_free s nbrs v).
Proof. unfold conflict_free. apply _. Defined.

(** What a search leaves of the store it was given: domains only lose
    values, a cell with at most one candidate is not touched, and no domain
    becomes empty. *)
Definition frame (s s' : Store) : Prop :=
  wf_store s' ∧ shrinks s s' ∧
  (∀ c, ¬ unassigned s c → dom s' c = dom s c) ∧
  (∀ c, dom s c ≠ ∅ → dom s' c ≠ ∅).

(** The same for the loop over the values of cell [c], whose own domain is
    overwritten. *)
Definition loop_frame (c : Cell) (s s' : Store) : Prop :=
  wf_store s' ∧
  ∀ x, x ≠ c →
    dom s' x ⊆ dom s x ∧
    (¬ unassigned s x → dom s' x = dom s x) ∧
    (dom s x ≠ ∅ → dom s' x ≠ ∅).

Definition all_settled (s : Store) : Prop := ∀ c, ¬ unassigned s c.

(** The number of unassigned cells, and of those other than [c]. *)
Definition unassigned_count (s : Store) : nat :=
  length (filter (unassigned s) all_cells).
Definition others_unassigned (s : Store) (c : Cell) : nat :=
  length (filter (λ x, x ≠ c ∧ unassigned s x) all_cells).

(** The recursive call behaves as a search on every store with fewer than
    [k] unassigned cells. *)
Definition search_spec (recurse : M bool) (k : nat) : Prop :=
  ∀ s, wf_store s → unassigned_count s < k →
    ∃ b s', recurse s = Ok (b, s') ∧ frame s s' ∧ (b = true → all_settled s').

(** *** Top-level entry points *)

Section entry.
Context `{!SetOrder, !NeighborIndex}.

(** The list [order_domain_values] returns. *)
Definition lcv_order (s : Store) (c : Cell) : list Z :=
  (sort_by_key ((λ v, (constraint_score s (neighbors c) v, v))
     <$> set_iter (dom s c))).*2.

(** The sum of all domain sizes, and the longest neighbor list. *)
Definition total_size (s : Store) : nat :=
  sum_list_with (λ c, size (dom s c)) all_cells.
Definition max_degree : nat :=
  max_list ((λ c, length (neighbors c)) <$> all_cells).

(** A number of iterations the worklist loop cannot exceed: every
    iteration pops an arc, and pushes at most [max_degree] arcs when it
    removed a value. *)
Definition ac3_bound (s : Store) : nat :=
  (max_degree + 1) * total_size s + length get_all_arcs.

Definition ac3_exit_of : M ac3_exit := λ s, ac3_run (ac3_bound s) s.

(** [ac3(csp)] *)
Definition ac3 : M bool := e ← ac3_exit_of; mret (ac3_result e).

(** [backtrack(csp)]: each level of the recursion assigns one more of the
    81 cells. *)
Definition backtrack : M bool := backtrack_fuel 82.

(** What [main] prints, for the store built from the puzzle. *)
Inductive main_outcome : Type :=
  | SolvedByAC3            (* "Puzzle solved by AC-3" *)
  | SolvedByBacktracking   (* "Puzzle solved with backtracking." *)
  | NoSolution.            (* "No solution found." *)

(** [main] (lines 252-268), from the store [SudokuCSP(input_puzzle)]
    on. *)
Definition main : M main_outcome :=
  ok ← ac3;
  if ok : bool then mret SolvedByAC3
  else
    found ← backtrack;
    if found : bool then mret SolvedByBacktracking else mret NoSolution.

(** The value [ac3] returns tells which way it was left. *)
Definition distinguishes_exits : Prop :=
  ∀ s1 s2 e1 e2 s1' s2',
    ac3_exit_of s1 = Ok (e1, s1') → ac3_exit_of s2 = Ok (e2, s2') →
    ac3_result e1 = ac3_result e2 → e1 = e2.

End entry.

(** ** A concrete runtime: ascending iteration and row-major neighbors *)

Definition ascending (d : Domain) : list Z := merge_sort Z.le (elements d).

(** Another order of iteration: descending. *)
Definition descending (d : Domain) : list Z := reverse (ascending d).

(** The peers of a cell, in row-major order. *)
Definition row_major_neighbors (c : Cell) : list Cell :=
  filter (peer c) all_cells.

(** All ordered neighbor pairs, cell by cell. *)
Definition row_major_arcs : list Arc :=
  xi ← all_cells; xj ← row_major_neighbors xi; [(xi, xj)].

(** Another index: the same lists, reversed. *)
Definition reversed_neighbors (c : Cell) : list Cell :=
  reverse (row_major_neighbors c).
Definition reversed_arcs : list Arc := reverse row_major_arcs.

(** ** Grids *)

(** [print_solution]: the digit of an assigned cell, [0] otherwise. *)
Definition digit (d : Domain) : Z :=
  match elements d with
  | [v] => v
  | _ => 0
  end.

Definition row_cells (r : nat) : list Cell := (λ k, (r, k)) <$> seq 0 9.
Definition col_cells (k : nat) : list Cell := (λ r, (r, k)) <$> seq 0 9.
Definition box_cells (b : nat) : list Cell :=
  i ← seq 0 3; j ← seq 0 3; [(3 * (b `div` 3) + i, 3 * (b `mod` 3) + j)].

(** The 27 units: rows, columns and 3x3 boxes. *)
Definition units : list (list Cell) :=
  (row_cells <$> seq 0 9) ++ (col_cells <$> seq 0 9) ++ (box_cells <$> seq 0 9).

Definition digits_1_9 : list Z := [1; 2; 3; 4; 5; 6; 7; 8; 9]%Z.

(** Every cell holds one digit. *)
Definition all_assigned (s : Store) : Prop :=
  ∀ c, valid_cell c → size (dom s c) = 1.

(** Every row, column and box holds each digit 1-9 exactly once. *)
Definition valid_grid (s : Store) : Prop :=
  Forall (λ u, (λ c, digit (dom s c)) <$> u ≡ₚ digits_1_9) units.

#[global] Instance valid_grid_dec s : Decision (valid_grid s).
Proof. unfold valid_grid. apply _. Defined.

(** Every candidate is a digit 1-9. *)
Definition digits_only (s : Store) : Prop :=
  ∀ c v, v ∈ dom s c → (1 ≤ v ≤ 9)%Z.

(** Some complete valid grid can be reached by removing candidates. *)
Definition solvable (s : Store) : Prop :=
  ∃ t, wf_store t ∧ shrinks s t ∧ valid_grid t.

(** Modelled from the spec: [SudokuCSP(puzzle)] of [csp.py] is missing.  A
    puzzle is a grid of digits, [0] for a blank; a given cell gets the
    singleton of its digit, a blank cell the digits 1-9 that no given peer
    holds. *)
Definition given (p : list (list Z)) (c : Cell) : Z :=
  default 0%Z (p !! c.1 ≫= λ row, row !! c.2).

Definition initial_domain (p : list (list Z)) (c : Cell) : Domain :=
  if decide (given p c = 0%Z) then
    list_to_set digits_1_9 ∖ list_to_set (given p <$> filter (peer c) all_cells)
  else {[given p c]}.

Definition initial_store (p : list (list Z)) : Store :=
  (λ r, (λ k, initial_domain p (r, k)) <$> seq 0 9) <$> seq 0 9.

(** Puzzles used as examples: every cell given as 1 (unsolvable); no cell
    given; a puzzle with 17 givens and no two equal givens in a unit. *)
Definition all_ones : list (list Z) := replicate 9 (replicate 9 1%Z).

Definition blank : list (list Z) := replicate 9 (replicate 9 0%Z).

Definition seventeen : list (list Z) :=
  [[0;0;0;0;0;0;0;1;2];
   [0;0;0;0;3;5;0;0;0];
   [0;0;0;6;0;0;0;7;0];
   [7;0;0;0;0;0;3;0;0];
   [0;0;0;4;0;0;8;0;0];
   [1;0;0;0;0;0;0;0;0];
   [0;0;0;1;2;0;0;0;0];
   [0;8;0;0;0;0;0;4;0];
   [0;5;0;0;0;0;6;0;0]]%Z.

(** A puzzle of 30 givens whose solution is the grid [solved] below. *)
Definition easy : list (list Z) :=
  [[5;3;0;0;7;0;0;0;0];
   [6;0;0;1;9;5;0;0;0];
   [0;9;8;0;0;0;0;6;0];
   [8;0;0;0;6;0;0;0;3];
   [4;0;0;8;0;3;0;0;1];
   [7;0;0;0;2;0;0;0;6];
   [0;6;0;0;0;0;2;8;0];
   [0;0;0;4;1;9;0;0;5];
   [0;0;0;0;8;0;0;7;9]]%Z.

(** A solved grid, and stores obtained from it by reopening cells. *)
Definition solved : list (list Z) :=
  [[5;3;4;6;7;8;9;1;2];
   [6;7;2;1;9;5;3;4;8];
   [1;9;8;3;4;2;5;6;7];
   [8;5;9;7;6;1;4;2;3];
   [4;2;6;8;5;3;7;9;1];
   [7;1;3;9;2;4;8;5;6];
   [9;6;1;5;3;7;2;8;4];
   [2;8;7;4;1;9;6;3;5];
   [3;4;5;2;8;6;1;7;9]]%Z.

(** Cell (0,0) may be 3 or 5; cell (8,8) has no candidate left that its
    assigned neighbors allow. *)
Definition dead_end : Store :=
  upd (upd (initial_store solved) (0, 0) {[3; 5]}%Z) (8, 8) {[1; 2]}%Z.

(** Cell (8,8) has the candidates 1 and 2, both assigned in its row. *)
Definition cornered : Store := upd (initial_store solved) (8, 8) {[1; 2]}%Z.

(** Cell (0,0) has candidates 3 and 7; 3 is a candidate of four unassigned
    neighbors and 7 of one. *)
Definition lcv_example : Store :=
  foldr (λ '(c, d) s, upd s c d) (initial_store solved)
    [((0, 0), {[3; 7]}%Z); ((0, 1), {[3; 8]}%Z); ((0, 2), {[3; 8]}%Z);
     ((0, 3), {[3; 8]}%Z); ((0, 4), {[3; 8]}%Z); ((0, 5), {[7; 8]}%Z)].

(** Cell (4,4) has two candidates, cell (0,0) three. *)
Definition mrv_example : Store :=
  upd (upd (initial_store solved) (0, 0) {[1; 2; 5]}%Z) (4, 4) {[1; 5]}%Z.

(** ** The monad *)

Lemma run_bind {A B} (m : M A) (k : A → M B) (s : Store) :
  (m ≫= k) s = match m s with Ok (a, s') => k a s' | Raise e => Raise e end.
Proof. reflexivity. Qed.

Lemma run_ret {A} (a : A) (s : Store) : (mret a : M A) s = Ok (a, s).
Proof. reflexivity. Qed.

Lemma value_of_Some {A} (r : result (A * Store)) (a : A) :
  value_of r = Some a → r = Ok (a, store_of r).
Proof. destruct r as [[a' s']|e]; simpl; [|done]. by intros [= ->]. Qed.

Lemma bind_ok {A B} (m : M A) (k : A → M B) (s s' : Store) (a : A) :
  m s = Ok (a, s') → (m ≫= k) s = k a s'.
Proof. intros Hm. by rewrite run_bind, Hm. Qed.

(** ** The store *)

Lemma elem_of_all_cells (c : Cell) : c ∈ all_cells ↔ valid_cell c.
Proof.
  unfold all_cells, valid_cell. destruct c as [r k].
  rewrite list_elem_of_bind. split.
  - intros (r' & Hin & Hr). apply list_elem_of_bind in Hin as (k' & Hin & Hk).
    apply list_elem_of_singleton in Hin. injection Hin as -> ->.
    apply elem_of_seq in Hr. apply elem_of_seq in Hk. simpl. lia.
  - intros [Hr Hk]. simpl in Hr, Hk. exists r. split; [|apply elem_of_seq; lia].
    apply list_elem_of_bind. exists k. split; [|apply elem_of_seq; lia].
    by apply list_elem_of_singleton.
Qed.

Lemma Forall_valid_all_cells : Forall valid_cell all_cells.
Proof. apply Forall_forall. intros c. apply elem_of_all_cells. Qed.

(** The concrete runtime satisfies what is asked of the parameters. *)
#[global] Instance ascending_order : SetOrder.
Proof.
  refine {| set_iter := ascending |}.
  intros d. unfold ascending. apply merge_sort_Permutation.
Defined.

#[global] Instance row_major_index : NeighborIndex.
Proof.
  refine {| neighbors := row_major_neighbors; get_all_arcs := row_major_arcs |}.
  - intros c c' _. unfold row_major_neighbors.
    rewrite list_elem_of_filter, elem_of_all_cells. tauto.
  - intros xi xj. unfold row_major_arcs. rewrite list_elem_of_bind. split.
    + intros (x & Hin & Hx). apply list_elem_of_bind in Hin as (y & Hin & Hy).
      apply list_elem_of_singleton in Hin. injection Hin as -> ->.
      split; [by apply elem_of_all_cells|done].
    + intros [Hv Hn]. exists xi. split; [|by apply elem_of_all_cells].
      apply list_elem_of_bind. exists xj. split; [|done].
      by apply list_elem_of_singleton.
Defined.

(** So does the runtime that iterates the other way round. *)
Definition descending_order : SetOrder.
Proof.
  refine {| set_iter := descending |}.
  intros d. unfold descending. rewrite reverse_Permutation.
  apply (@set_iter_perm ascending_order).
Defined.

Definition reversed_index : NeighborIndex.
Proof.
  refine {| neighbors := reversed_neighbors; get_all_arcs := reversed_arcs |}.
  - intros c c' Hc. unfold reversed_neighbors. rewrite elem_of_reverse.
    apply (@neighbors_spec row_major_index c c' Hc).
  - intros xi xj. unfold reversed_arcs, reversed_neighbors.
    rewrite !elem_of_reverse. apply (@get_all_arcs_spec row_major_index).
Defined.

Lemma wf_lookup_row (s : Store) (r : nat) :
  wf_store s → r < 9 → ∃ row, s !! r = Some row ∧ length row = 9.
Proof.
  intros [Hlen Hrows] Hr.
  destruct (lookup_lt_is_Some_2 s r) as [row Hrow]; [lia|].
  exists row. split; [done|].
  by apply (Forall_lookup_1 _ _ _ _ Hrows Hrow).
Qed.

Lemma wf_lookup (s : Store) (c : Cell) :
  wf_store s → valid_cell c →
  ∃ row, s !! c.1 = Some row ∧ length row = 9 ∧ row !! c.2 = Some (dom s c).
Proof.
  intros Hwf [Hr Hk]. destruct (wf_lookup_row s c.1 Hwf Hr) as (row & Hrow & Hlen).
  exists row. split_and!; [done..|].
  destruct (lookup_lt_is_Some_2 row c.2) as [d Hd]; [lia|].
  unfold dom. rewrite Hrow. simpl. by rewrite Hd.
Qed.

Lemma dom_outside (s : Store) (c : Cell) :
  wf_store s → ¬ valid_cell c → dom s c = ∅.
Proof.
  intros Hwf Hc. unfold dom. destruct (decide (c.1 < 9)) as [Hr|Hr].
  - destruct (wf_lookup_row s c.1 Hwf Hr) as (row & Hrow & Hlen).
    rewrite Hrow. simpl. rewrite (proj2 (lookup_ge_None _ _)); [done|].
    unfold valid_cell in Hc. lia.
  - destruct Hwf as [Hlen _]. rewrite (proj2 (lookup_ge_None _ _)); [done|lia].
Qed.

Lemma get_domain_ok (s : Store) (c : Cell) :
  wf_store s → valid_cell c → get_domain c s = Ok (dom s c, s).
Proof.
  intros Hwf Hc. destruct (wf_lookup s c Hwf Hc) as (row & Hrow & _ & Hd).
  unfold get_domain. by rewrite Hrow, Hd.
Qed.

Lemma set_domain_ok (s : Store) (c : Cell) (d : Domain) :
  wf_store s → valid_cell c → set_domain c d s = Ok ((), upd s c d).
Proof.
  intros Hwf Hc. destruct (wf_lookup s c Hwf Hc) as (row & Hrow & Hlen & _).
  unfold set_domain. rewrite Hrow. destruct Hc. case_decide; [done|lia].
Qed.

Lemma upd_wf (s : Store) (c : Cell) (d : Domain) :
  wf_store s → wf_store (upd s c d).
Proof.
  intros [Hlen Hrows]. unfold upd.
  destruct (s !! c.1) as [row|] eqn:Hrow; simpl.
  - split; [by rewrite length_insert|].
    apply Forall_insert; [done|]. rewrite length_insert.
    by apply (Forall_lookup_1 _ _ _ _ Hrows Hrow).
  - apply lookup_ge_None in Hrow. by rewrite list_insert_ge.
Qed.

Lemma dom_upd_eq (s : Store) (c : Cell) (d : Domain) :
  wf_store s → valid_cell c → dom (upd s c d) c = d.
Proof.
  intros Hwf Hc. destruct (wf_lookup s c Hwf Hc) as (row & Hrow & Hlen & _).
  destruct Hc as [Hr Hk]. destruct Hwf as [Hs _].
  unfold dom, upd. rewrite Hrow. simpl.
  rewrite list_lookup_insert_eq by lia. simpl.
  by rewrite list_lookup_insert_eq by lia.
Qed.

Lemma dom_upd_ne (s : Store) (c c' : Cell) (d : Domain) :
  c ≠ c' → dom (upd s c d) c' = dom s c'.
Proof.
  intros Hne. unfold dom, upd.
  destruct (decide (c.1 = c'.1)) as [Heq|Hr].
  - destruct (s !! c.1) as [row|] eqn:Hrow; simpl.
    + rewrite <-Heq, Hrow. rewrite list_lookup_insert_eq
        by (by eapply lookup_lt_Some). simpl.
      rewrite list_lookup_insert_ne; [done|].
      intros Hk. apply Hne. destruct c, c'; simpl in *; congruence.
    + apply lookup_ge_None in Hrow. by rewrite list_insert_ge.
  - by rewrite list_lookup_insert_ne.
Qed.

Lemma dom_upd (s : Store) (c c' : Cell) (d : Domain) :
  wf_store s → valid_cell c →
  dom (upd s c d) c' = if decide (c' = c) then d else dom s c'.
Proof.
  intros Hwf Hc. case_decide as Heq.
  - subst. by apply dom_upd_eq.
  - by apply dom_upd_ne.
Qed.

(** Two well-formed stores with the same domains are the same store. *)
Lemma store_ext (s s' : Store) :
  wf_store s → wf_store s' →
  (∀ c, valid_cell c → dom s c = dom s' c) → s = s'.
Proof.
  intros Hwf Hwf' Hdom. apply list_eq. intros r.
  destruct (decide (r < 9)) as [Hr|Hr].
  - destruct (wf_lookup_row s r Hwf Hr) as (row & Hrow & Hlen).
    destruct (wf_lookup_row s' r Hwf' Hr) as (row' & Hrow' & Hlen').
    rewrite Hrow, Hrow'. f_equal. apply list_eq. intros k.
    destruct (decide (k < 9)) as [Hk|Hk].
    + specialize (Hdom (r, k) (conj Hr Hk)).
      destruct (wf_lookup s (r, k) Hwf (conj Hr Hk)) as (x & Hx & _ & Hd).
      destruct (wf_lookup s' (r, k) Hwf' (conj Hr Hk)) as (x' & Hx' & _ & Hd').
      simpl in *. rewrite Hrow in Hx. rewrite Hrow' in Hx'.
      injection Hx as <-. injection Hx' as <-. by rewrite Hd, Hd', Hdom.
    + rewrite !(proj2 (lookup_ge_None _ _)); [done|lia..].
  - destruct Hwf as [Hs _], Hwf' as [Hs' _].
    rewrite !(proj2 (lookup_ge_None _ _)); [done|lia..].
Qed.

Lemma upd_same (s : Store) (c : Cell) :
  wf_store s → valid_cell c → upd s c (dom s c) = s.
Proof.
  intros Hwf Hc. apply store_ext; [by apply upd_wf|done|].
  intros c' Hc'. rewrite dom_upd by done. by case_decide; subst.
Qed.

Lemma domain_remove_ok (s : Store) (c : Cell) (v : Z) :
  wf_store s → valid_cell c → v ∈ dom s c →
  domain_remove c v s = Ok ((), upd s c (dom s c ∖ {[v]})).
Proof.
  intros Hwf Hc Hv. unfold domain_remove.
  rewrite (bind_ok _ _ _ _ _ (get_domain_ok s c Hwf Hc)).
  rewrite decide_True by done. by apply set_domain_ok.
Qed.

Lemma domain_add_ok (s : Store) (c : Cell) (v : Z) :
  wf_store s → valid_cell c →
  domain_add c v s = Ok ((), upd s c ({[v]} ∪ dom s c)).
Proof.
  intros Hwf Hc. unfold domain_add.
  rewrite (bind_ok _ _ _ _ _ (get_domain_ok s c Hwf Hc)).
  by apply set_domain_ok.
Qed.

Lemma size_1_singleton (d : Domain) : size d = 1 ↔ ∃ v, d = {[v]}.
Proof.
  split.
  - intros Hd. apply size_1_elem_of in Hd as [v Hv]. exists v.
    by apply leibniz_equiv.
  - intros [v ->]. apply size_singleton.
Qed.

(** ** [revise] *)

Section revise_proofs.
Context `{!SetOrder, !NeighborIndex}.

Lemma set_iter_elem (d : Domain) (v : Z) : v ∈ set_iter d ↔ v ∈ d.
Proof. by rewrite set_iter_perm, elem_of_elements. Qed.

Lemma set_iter_NoDup (d : Domain) : NoDup (set_iter d).
Proof. rewrite set_iter_perm. apply NoDup_elements. Qed.

Lemma set_iter_singleton (v : Z) : set_iter {[v]} = [v].
Proof.
  apply Permutation_singleton_r. by rewrite set_iter_perm, elements_singleton.
Qed.

(** Nothing is removed because of a neighbor that is not assigned. *)
Lemma revise_loop_idle (xi xj : Cell) (values : list Z) (revised : bool) (s : Store) :
  wf_store s → valid_cell xj → size (dom s xj) ≠ 1 →
  revise_loop xi xj values revised s = Ok (revised, s).
Proof.
  intros Hwf Hj Hsize. induction values as [|value rest IH]; [done|].
  simpl. rewrite (bind_ok _ _ _ _ _ (get_domain_ok s xj Hwf Hj)).
  rewrite decide_False by tauto. done.
Qed.

(** The value of an assigned neighbor is removed when it is met. *)
Lemma revise_loop_assigned (xi xj : Cell) (w : Z) (values : list Z)
    (revised : bool) (s : Store) :
  wf_store s → valid_cell xi → valid_cell xj → xi ≠ xj →
  dom s xj = {[w]} → NoDup values → (∀ v, v ∈ values → v ∈ dom s xi) →
  revise_loop xi xj values revised s =
    Ok (revised || bool_decide (w ∈ values),
        if decide (w ∈ values) then upd s xi (dom s xi ∖ {[w]}) else s).
Proof.
  intros Hwf Hi Hj Hne. revert revised s Hwf.
  induction values as [|value rest IH]; intros revised s Hwf Hw Hnd Hin.
  { simpl. rewrite orb_false_r. done. }
  apply NoDup_cons in Hnd as [Hfresh Hnd]. simpl.
  rewrite (bind_ok _ _ _ _ _ (get_domain_ok s xj Hwf Hj)). rewrite Hw.
  destruct (decide (value = w)) as [->|Hvw].
  - rewrite decide_True by (split; [apply size_singleton|set_solver]).
    assert (w ∈ dom s xi) as Hwi by (apply Hin; left).
    rewrite (bind_ok _ _ _ _ _ (domain_remove_ok s xi w Hwf Hi Hwi)).
    rewrite IH; [|by apply upd_wf|by rewrite dom_upd_ne|done|].
    + rewrite bool_decide_eq_false_2 by done. rewrite decide_False by done.
      rewrite decide_True by left. rewrite bool_decide_eq_true_2 by left.
      by rewrite orb_true_r.
    + intros v Hv. rewrite dom_upd_eq by done.
      apply elem_of_difference. split; [apply Hin; by right|].
      intros ->%elem_of_singleton. done.
  - rewrite decide_False by set_solver.
    rewrite IH; [|done..|intros v Hv; apply Hin; by right].
    destruct (decide (w ∈ rest)) as [Hr|Hr].
    + rewrite decide_True by (by right).
      by rewrite !bool_decide_eq_true_2 by (done || by right).
    + rewrite decide_False by (by intros [?|?]%elem_of_cons).
      rewrite !bool_decide_eq_false_2; [done|by intros [?|?]%elem_of_cons|done].
Qed.

(** [revise] as a function of the store it starts from. *)
Lemma revise_ok (xi xj : Cell) (s : Store) :
  wf_store s → valid_cell xi → valid_cell xj →
  revise xi xj s = Ok (bool_decide (revisable s xi xj), revise_store s xi xj).
Proof.
  intros Hwf Hi Hj. unfold revise, revise_store.
  rewrite (bind_ok _ _ _ _ _ (get_domain_ok s xi Hwf Hi)).
  rewrite (bind_ok _ _ _ _ _ (get_domain_ok s xj Hwf Hj)).
  destruct (decide (size (dom s xj) = 1)) as [Hsize|Hsize].
  - apply size_1_singleton in Hsize as Hw. destruct Hw as [w Hw].
    destruct (decide (xi = xj)) as [->|Hne].
    + assert (revisable s xj xj) as Hrev.
      { split; [done|]. rewrite Hw. set_solver. }
      rewrite (bool_decide_eq_true_2 _ Hrev).
      rewrite Hw, set_iter_singleton. simpl.
      rewrite (bind_ok _ _ _ _ _ (get_domain_ok s xj Hwf Hj)). rewrite Hw.
      rewrite decide_True by (split; [apply size_singleton|set_solver]).
      assert (w ∈ dom s xj) as Hwj by set_solver.
      rewrite (bind_ok _ _ _ _ _ (domain_remove_ok s xj w Hwf Hj Hwj)).
      by rewrite Hw.
    + rewrite (revise_loop_assigned xi xj w); try done;
        [|apply set_iter_NoDup|by intros v ?%set_iter_elem].
      simpl. f_equal. f_equal.
      * apply bool_decide_ext. unfold revisable.
        rewrite set_iter_elem, Hw. split.
        -- intros Hin. split; [apply size_singleton|set_solver].
        -- intros [_ Hin]. destruct (decide (w ∈ dom s xi)); [done|].
           exfalso. apply Hin. set_solver.
      * rewrite Hw. case_decide as Hin; [done|]. rewrite set_iter_elem in Hin.
        replace (dom s xi ∖ {[w]}) with (dom s xi) by set_solver.
        by rewrite upd_same.
  - rewrite revise_loop_idle by done.
    rewrite bool_decide_eq_false_2; [done|]. unfold revisable. tauto.
Qed.

End revise_proofs.

(** ** [ac3] *)

Lemma NoDup_all_cells : NoDup all_cells.
Proof. apply (bool_decide_unpack _). by vm_compute. Qed.

Lemma sum_list_update {A} (f g : A → nat) (l : list A) (x : A) :
  NoDup l → x ∈ l → (∀ y, y ≠ x → f y = g y) →
  sum_list_with f l + g x = sum_list_with g l + f x.
Proof.
  intros Hnd Hx Hfg. induction l as [|y l IH]; [by apply elem_of_nil in Hx|].
  apply NoDup_cons in Hnd as [Hy Hnd]. simpl.
  apply elem_of_cons in Hx as [->|Hx].
  - assert (sum_list_with f l = sum_list_with g l) as ->; [|lia].
    clear IH Hnd. induction l as [|z l IH]; [done|]. simpl.
    apply not_elem_of_cons in Hy as [Hz Hy]. rewrite IH by done.
    by rewrite (Hfg z).
  - rewrite (Hfg y) by (by intros ->). specialize (IH Hnd Hx). lia.
Qed.

Lemma total_size_upd (s : Store) (c : Cell) (d : Domain) :
  wf_store s → valid_cell c →
  total_size (upd s c d) + size (dom s c) = total_size s + size d.
Proof.
  intros Hwf Hc. unfold total_size.
  pose proof (sum_list_update (λ x, size (dom (upd s c d) x))
    (λ x, size (dom s x)) all_cells c) as Hsum. simpl in Hsum.
  rewrite (dom_upd_eq s c d Hwf Hc) in Hsum. apply Hsum.
  - apply NoDup_all_cells.
  - by apply elem_of_all_cells.
  - intros y Hy. by rewrite dom_upd_ne.
Qed.

Lemma shrinks_refl (s : Store) : shrinks s s.
Proof. by intros c. Qed.

Lemma shrinks_trans (s1 s2 s3 : Store) :
  shrinks s1 s2 → shrinks s2 s3 → shrinks s1 s3.
Proof. intros H12 H23 c. etrans; [apply H23|apply H12]. Qed.

Lemma shrinks_upd (s : Store) (c : Cell) (d : Domain) :
  wf_store s → valid_cell c → d ⊆ dom s c → shrinks s (upd s c d).
Proof. intros Hwf Hc Hd c'. rewrite dom_upd by done. by case_decide; subst. Qed.

Section ac3_proofs.
Context `{!SetOrder, !NeighborIndex}.

Lemma neighbors_valid (c c' : Cell) :
  valid_cell c → c' ∈ neighbors c → valid_cell c'.
Proof. intros Hc Hin. by apply neighbors_spec in Hin as [? _]. Qed.

Lemma neighbors_sym (c c' : Cell) :
  valid_cell c → c' ∈ neighbors c → c ∈ neighbors c'.
Proof.
  intros Hc Hin. apply neighbors_spec in Hin as [Hc' [Hne Hp]]; [|done].
  apply neighbors_spec; [done|]. split; [done|]. split; [done|].
  unfold same_row, same_col, same_box in *. naive_solver.
Qed.

Lemma neighbors_irrefl (c : Cell) : valid_cell c → c ∉ neighbors c.
Proof. intros Hc Hin. by apply neighbors_spec in Hin as [_ [Hne _]]. Qed.

Lemma arc_valid (xi xj : Cell) :
  (xi, xj) ∈ get_all_arcs → valid_cell xi ∧ valid_cell xj ∧ xi ≠ xj.
Proof.
  intros [Hi Hin]%get_all_arcs_spec.
  apply neighbors_spec in Hin as [Hj [Hne _]]; done.
Qed.

Lemma degree_bound (c : Cell) : valid_cell c → length (neighbors c) ≤ max_degree.
Proof.
  intros Hc. unfold max_degree. apply max_list_elem_of_le.
  apply list_elem_of_fmap. exists c. split; [done|]. by apply elem_of_all_cells.
Qed.

Lemma enqueue_neighbors_eq (xi xj : Cell) (nbrs : list Cell) (queue : list Arc) :
  enqueue_neighbors xi xj nbrs queue =
    queue ++ ((λ xk, (xk, xi)) <$> filter (λ xk, xk ≠ xj) nbrs).
Proof.
  revert queue. induction nbrs as [|xk rest IH]; intros queue; simpl.
  { by rewrite app_nil_r. }
  rewrite filter_cons. case_decide.
  - by rewrite IH, <-app_assoc.
  - by rewrite IH.
Qed.

Lemma revise_store_wf (s : Store) (xi xj : Cell) :
  wf_store s → wf_store (revise_store s xi xj).
Proof. intros Hwf. unfold revise_store. case_decide; [by apply upd_wf|done]. Qed.

Lemma revise_store_stable (s : Store) (xi xj : Cell) :
  wf_store s → valid_cell xi → ¬ revisable s xi xj → revise_store s xi xj = s.
Proof.
  intros Hwf Hi Hrev. unfold revise_store. case_decide as Hsize; [|done].
  replace (dom s xi ∖ dom s xj) with (dom s xi); [by apply upd_same|].
  unfold revisable in Hrev. apply set_eq. intros v.
  rewrite elem_of_difference. split; [|tauto]. intros Hv. split; [done|].
  intros Hvj. apply Hrev. split; [done|]. set_solver.
Qed.

Lemma dom_revise_store (s : Store) (xi xj c : Cell) :
  wf_store s → valid_cell xi →
  dom (revise_store s xi xj) c =
    if decide (c = xi ∧ size (dom s xj) = 1) then dom s xi ∖ dom s xj
    else dom s c.
Proof.
  intros Hwf Hi. unfold revise_store. destruct (decide (size (dom s xj) = 1)).
  - rewrite dom_upd by done. destruct (decide (c = xi)) as [->|].
    + by rewrite decide_True.
    + by rewrite decide_False by tauto.
  - by rewrite decide_False by tauto.
Qed.

Lemma revise_store_shrinks (s : Store) (xi xj : Cell) :
  wf_store s → valid_cell xi → shrinks s (revise_store s xi xj).
Proof.
  intros Hwf Hi c. rewrite dom_revise_store by done.
  case_decide as Hc; [|done]. destruct Hc as [-> _]. set_solver.
Qed.

Lemma revise_decreases (s : Store) (xi xj : Cell) :
  wf_store s → valid_cell xi → revisable s xi xj →
  total_size (revise_store s xi xj) < total_size s.
Proof.
  intros Hwf Hi [Hsize Hmeet]. unfold revise_store. rewrite decide_True by done.
  pose proof (total_size_upd s xi (dom s xi ∖ dom s xj) Hwf Hi) as Hupd.
  rewrite size_difference_alt in Hupd.
  assert (size (dom s xi ∩ dom s xj) ≠ 0) as Hpos.
  { by apply size_non_empty_iff, (not_iff_compat (leibniz_equiv_iff _ _)). }
  assert (size (dom s xi ∩ dom s xj) ≤ size (dom s xi)) as Hle.
  { apply subseteq_size. set_solver. }
  lia.
Qed.

(** Revising [xi] against [xj] leaves stable every arc that was stable,
    except the arcs into [xi] that are put back on the queue. *)
Lemma stable_after_revise (s : Store) (xi xj : Cell) (a : Arc) :
  wf_store s → (xi, xj) ∈ get_all_arcs → revisable s xi xj →
  a ∈ get_all_arcs → a = (xi, xj) ∨ stable s a →
  a ∉ (λ xk, (xk, xi)) <$> filter (λ xk, xk ≠ xj) (neighbors xi) →
  stable (revise_store s xi xj) a.
Proof.
  intros Hwf Harc [Hsize Hmeet] Ha Hold Hqueue.
  destruct (arc_valid _ _ Harc) as (Hi & Hj & Hij).
  destruct a as [a b]. unfold stable, revisable in *. simpl in *.
  rewrite !dom_revise_store by done.
  destruct (decide (b = xi)) as [->|Hb].
  - apply get_all_arcs_spec in Ha as [Hva Hin].
    apply neighbors_sym in Hin; [|done].
    destruct (decide (a = xj)) as [->|Haj].
    + rewrite decide_True by done. rewrite decide_False by naive_solver.
      intros [_ Hne]. apply Hne. set_solver.
    + exfalso. apply Hqueue. apply list_elem_of_fmap. exists a.
      split; [done|]. by apply list_elem_of_filter.
  - rewrite (decide_False (P := b = xi ∧ _)) by tauto.
    destruct (decide (a = xi)) as [->|Hai].
    + rewrite decide_True by done.
      destruct Hold as [[= ->]|Hst].
      * intros [_ Hne]. apply Hne. set_solver.
      * intros [Hb1 Hne]. apply Hst. split; [done|]. set_solver.
    + rewrite decide_False by tauto.
      destruct Hold as [[= -> ->]|Hst]; done.
Qed.

(** The worklist loop: it ends within the bound, only removes values, and
    leaves every arc stable when the queue empties. *)
Lemma ac3_loop_spec (fuel : nat) (queue : list Arc) (s : Store) :
  wf_store s →
  (∀ a, a ∈ queue → a ∈ get_all_arcs) →
  (max_degree + 1) * total_size s + length queue ≤ fuel →
  (∀ a, a ∈ get_all_arcs → a ∉ queue → stable s a) →
  ∃ finished s',
    ac3_loop fuel queue s = Ok (finished, s') ∧ wf_store s' ∧ shrinks s s' ∧
    if finished : bool then
      (∀ a, a ∈ get_all_arcs → stable s' a) ∧ (∀ c, dom s c ≠ ∅ → dom s' c ≠ ∅)
    else ∃ c, valid_cell c ∧ dom s' c = ∅ ∧ dom s c ≠ ∅.
Proof.
  revert queue s. induction fuel as [|fuel IH]; intros queue s Hwf Hq Hfuel Hst.
  - destruct queue as [|[xi xj] q]; [|simpl in Hfuel; lia].
    exists true, s. do 2 (split; [done|]). split; [apply shrinks_refl|].
    split; [|done]. intros a Ha. apply Hst; [done|]. apply not_elem_of_nil.
  - destruct queue as [|[xi xj] q].
    { exists true, s. do 2 (split; [done|]). split; [apply shrinks_refl|].
      split; [|done]. intros a Ha. apply Hst; [done|]. apply not_elem_of_nil. }
    assert ((xi, xj) ∈ get_all_arcs) as Harc by (apply Hq; left).
    destruct (arc_valid _ _ Harc) as (Hi & Hj & Hij).
    pose proof (revise_store_wf s xi xj Hwf) as Hwf1.
    pose proof (revise_store_shrinks s xi xj Hwf Hi) as Hsh1.
    cbn [ac3_loop]. rewrite (bind_ok _ _ _ _ _ (revise_ok xi xj s Hwf Hi Hj)).
    destruct (decide (revisable s xi xj)) as [Hrev|Hrev].
    + rewrite bool_decide_eq_true_2 by done.
      rewrite (bind_ok _ _ _ _ _ (get_domain_ok _ xi Hwf1 Hi)).
      destruct (decide (dom (revise_store s xi xj) xi = ∅)) as [Hempty|Hfull].
      { exists false, (revise_store s xi xj). do 3 (split; [done|]).
        exists xi. split_and!; [done..|]. destruct Hrev as [_ Hne]. set_solver. }
      unfold get_neighbors. rewrite decide_True by done.
      rewrite (bind_ok _ _ _ _ _ (run_ret _ _)).
      destruct (IH (enqueue_neighbors xi xj (neighbors xi) q)
        (revise_store s xi xj)) as (fin & s' & Hrun & Hwf' & Hsh' & Hres).
      * done.
      * intros a. rewrite enqueue_neighbors_eq. intros [Ha|Ha]%elem_of_app.
        { apply Hq. by right. }
        apply list_elem_of_fmap in Ha as (xk & -> & Hk).
        apply list_elem_of_filter in Hk as [_ Hk].
        apply get_all_arcs_spec. split; [by apply (neighbors_valid xi)|].
        by apply neighbors_sym.
      * pose proof (revise_decreases s xi xj Hwf Hi Hrev) as Hdec.
        pose proof (degree_bound xi Hi) as Hdeg.
        rewrite enqueue_neighbors_eq, length_app, length_fmap.
        pose proof (length_filter (λ xk, xk ≠ xj) (neighbors xi)) as Hlen.
        simpl in Hfuel. nia.
      * intros a Ha Hnotin. rewrite enqueue_neighbors_eq in Hnotin.
        apply not_elem_of_app in Hnotin as [Hnq Hnn].
        apply stable_after_revise; [done..| |done].
        destruct (decide (a = (xi, xj))) as [|Hne]; [by left|right].
        apply Hst; [done|]. by intros [?|?]%elem_of_cons.
      * exists fin, s'. do 2 (split; [done|]). split; [by eapply shrinks_trans|].
        destruct fin.
        -- destruct Hres as [Hstab Hne]. split; [done|]. intros c Hc. apply Hne.
           rewrite dom_revise_store by done. case_decide as Hd; [|done].
           destruct Hd as [-> Hd].
           by rewrite dom_revise_store, decide_True in Hfull by done.
        -- destruct Hres as (c & Hc & Hc' & Hne). exists c. split_and!; [done..|].
           specialize (Hsh1 c). set_solver.
    + rewrite bool_decide_eq_false_2 by done.
      rewrite revise_store_stable by done.
      apply IH; [done|..].
      * intros a Ha. apply Hq. by right.
      * simpl in Hfuel. lia.
      * intros a Ha Hnotin. destruct (decide (a = (xi, xj))) as [->|Hne]; [done|].
        apply Hst; [done|]. by intros [?|?]%elem_of_cons.
Qed.

Lemma all_singletons_ok (cells : list Cell) (s : Store) :
  wf_store s → Forall valid_cell cells →
  all_singletons cells s =
    Ok (bool_decide (Forall (λ c, size (dom s c) = 1) cells), s).
Proof.
  intros Hwf. induction cells as [|c rest IH]; intros Hcells; cbn [all_singletons].
  { by rewrite bool_decide_eq_true_2 by constructor. }
  apply Forall_cons in Hcells as [Hc Hrest].
  rewrite (bind_ok _ _ _ _ _ (get_domain_ok s c Hwf Hc)).
  destruct (decide (size (dom s c) = 1)) as [Hsize|Hsize].
  - rewrite IH by done. do 2 f_equal. apply bool_decide_ext.
    rewrite Forall_cons. tauto.
  - rewrite bool_decide_eq_false_2; [done|]. by intros [? _]%Forall_cons.
Qed.

(** The three ways out of [ac3]. *)
Lemma ac3_run_spec (fuel : nat) (s : Store) :
  wf_store s → ac3_bound s ≤ fuel →
  ∃ e s', ac3_run fuel s = Ok (e, s') ∧ wf_store s' ∧ shrinks s s' ∧
    match e with
    | ExitEmptyDomain => ∃ c, valid_cell c ∧ dom s' c = ∅ ∧ dom s c ≠ ∅
    | ExitSolved =>
        (∀ a, a ∈ get_all_arcs → stable s' a) ∧
        (∀ c, valid_cell c → size (dom s' c) = 1)
    | ExitNotSolved =>
        (∀ a, a ∈ get_all_arcs → stable s' a) ∧
        (∀ c, dom s c ≠ ∅ → dom s' c ≠ ∅) ∧
        (∃ c, valid_cell c ∧ size (dom s' c) ≠ 1)
    end.
Proof.
  intros Hwf Hfuel. unfold ac3_run.
  destruct (ac3_loop_spec fuel get_all_arcs s Hwf)
    as (fin & s' & Hrun & Hwf' & Hsh & Hres); [done|done|done|].
  rewrite (bind_ok _ _ _ _ _ Hrun). destruct fin.
  - destruct Hres as [Hstable Hne].
    rewrite (bind_ok _ _ _ _ _
      (all_singletons_ok all_cells s' Hwf' Forall_valid_all_cells)).
    destruct (decide (Forall (λ c, size (dom s' c) = 1) all_cells)) as [Hall|Hall].
    + rewrite bool_decide_eq_true_2 by done. exists ExitSolved, s'.
      do 3 (split; [done|]). split; [done|]. intros c Hc.
      rewrite Forall_forall in Hall. by apply Hall, elem_of_all_cells.
    + rewrite bool_decide_eq_false_2 by done. exists ExitNotSolved, s'.
      do 3 (split; [done|]). do 2 (split; [done|]).
      apply not_Forall_Exists in Hall; [|apply _].
      apply Exists_exists in Hall as (c & Hc & Hsize).
      exists c. split; [by apply elem_of_all_cells|done].
  - exists ExitEmptyDomain, s'. by do 3 (split; [done|]).
Qed.

Lemma ac3_exit_of_spec (s : Store) :
  wf_store s →
  ∃ e s', ac3_exit_of s = Ok (e, s') ∧ wf_store s' ∧ shrinks s s' ∧
    match e with
    | ExitEmptyDomain => ∃ c, valid_cell c ∧ dom s' c = ∅ ∧ dom s c ≠ ∅
    | ExitSolved =>
        (∀ a, a ∈ get_all_arcs → stable s' a) ∧
        (∀ c, valid_cell c → size (dom s' c) = 1)
    | ExitNotSolved =>
        (∀ a, a ∈ get_all_arcs → stable s' a) ∧
        (∀ c, dom s c ≠ ∅ → dom s' c ≠ ∅) ∧
        (∃ c, valid_cell c ∧ size (dom s' c) ≠ 1)
    end.
Proof. intros Hwf. by apply ac3_run_spec. Qed.

Lemma ac3_ok (s : Store) :
  wf_store s → ∃ b s', ac3 s = Ok (b, s') ∧ wf_store s' ∧ shrinks s s'.
Proof.
  intros Hwf. destruct (ac3_exit_of_spec s Hwf) as (e & s' & Hrun & Hwf' & Hsh & _).
  exists (ac3_result e), s'. split; [|done].
  unfold ac3. by rewrite (bind_ok _ _ _ _ _ Hrun).
Qed.

End ac3_proofs.

(** ** [find_empty_cell] *)

Lemma below_trans (n m : nat) (min_len : option nat) :
  n < m → below m min_len → below n min_len.
Proof. destruct min_len; simpl; [lia|done]. Qed.

Lemma below_le (n m : nat) (min_len : option nat) :
  below n min_len → ¬ below m min_len → n < m.
Proof. destruct min_len; simpl; [lia|done]. Qed.

Lemma find_empty_loop_spec (cells : list Cell) (min_len : option nat)
    (best_cell : option Cell) (s : Store) :
  wf_store s → Forall valid_cell cells →
  ∃ r, find_empty_loop cells min_len best_cell s = Ok (r, s) ∧
    ((r = best_cell ∧
      ∀ c, c ∈ cells → unassigned s c → ¬ below (size (dom s c)) min_len) ∨
     (∃ c, r = Some c ∧ first_min s cells c ∧ below (size (dom s c)) min_len)).
Proof.
  intros Hwf. revert min_len best_cell.
  induction cells as [|c rest IH]; intros min_len best_cell Hcells.
  { exists best_cell. split; [done|]. left. split; [done|].
    by intros c ?%elem_of_nil. }
  apply Forall_cons in Hcells as [Hc Hrest]. simpl.
  rewrite (bind_ok _ _ _ _ _ (get_domain_ok s c Hwf Hc)).
  destruct (decide (1 < size (dom s c) ∧ below (size (dom s c)) min_len))
    as [[Hun Hbelow]|Hno].
  - destruct (IH (Some (size (dom s c))) (Some c) Hrest) as (r & Hrun & Hr).
    exists r. split; [done|]. right. destruct Hr as [[-> Hmin]|(c2 & -> & Hfm & Hlt)].
    + exists c. split; [done|]. split; [|done]. exists [], rest.
      split; [done|]. split; [done|]. split; [by intros c' ?%elem_of_nil|].
      intros c' Hc' Hun'. specialize (Hmin c' Hc' Hun'). simpl in Hmin. lia.
    + exists c2. split; [done|]. simpl in Hlt. split; [|by eapply below_trans].
      destruct Hfm as (pre & post & -> & Hun2 & Hpre & Hpost).
      exists (c :: pre), post. split; [done|]. split; [done|]. split; [|done].
      intros c' [->|Hc']%elem_of_cons Hun'; [done|by apply Hpre].
  - destruct (IH min_len best_cell Hrest) as (r & Hrun & Hr).
    exists r. split; [done|]. destruct Hr as [[-> Hmin]|(c2 & -> & Hfm & Hlt)].
    + left. split; [done|]. intros c' [->|Hc']%elem_of_cons Hun'; [|by apply Hmin].
      intros Hb. apply Hno. done.
    + right. exists c2. split; [done|]. split; [|done].
      destruct Hfm as (pre & post & -> & Hun2 & Hpre & Hpost).
      exists (c :: pre), post. split; [done|]. split; [done|]. split; [|done].
      intros c' [->|Hc']%elem_of_cons Hun'; [|by apply Hpre].
      eapply below_le; [done|]. intros Hb. by apply Hno.
Qed.

Lemma all_cells_sorted : StronglySorted row_major_lt all_cells.
Proof. apply (bool_decide_unpack _). by vm_compute. Qed.

Lemma find_empty_cell_spec (s : Store) :
  wf_store s →
  ∃ r, find_empty_cell s = Ok (r, s) ∧
    match r with
    | None => ∀ c, valid_cell c → ¬ unassigned s c
    | Some c => first_min s all_cells c
    end.
Proof.
  intros Hwf.
  destruct (find_empty_loop_spec all_cells None None s Hwf Forall_valid_all_cells)
    as (r & Hrun & Hr).
  exists r. split; [done|]. destruct Hr as [[-> Hnone]|(c & -> & Hfm & _)]; [|done].
  intros c Hc Hun. by apply (Hnone c); [apply elem_of_all_cells|..].
Qed.

(** ** [sorted] *)

Lemma insert_by_key_perm {A} (x : nat * A) (l : list (nat * A)) :
  insert_by_key x l ≡ₚ x :: l.
Proof.
  induction l as [|y l IH]; [done|]. simpl. case_decide; [done|].
  rewrite IH. apply Permutation_swap.
Qed.

Lemma sort_by_key_perm {A} (l : list (nat * A)) : sort_by_key l ≡ₚ l.
Proof.
  induction l as [|x l IH]; [done|]. simpl.
  by rewrite insert_by_key_perm, IH.
Qed.

Lemma insert_by_key_sorted {A} (x : nat * A) (l : list (nat * A)) :
  StronglySorted (λ a b, a.1 ≤ b.1) l →
  StronglySorted (λ a b, a.1 ≤ b.1) (insert_by_key x l).
Proof.
  induction 1 as [|y l Hl IH Hy]; simpl.
  { repeat constructor. }
  case_decide as Hxy.
  - constructor; [by constructor|]. constructor; [done|].
    eapply Forall_impl; [done|]. simpl. intros z Hz. lia.
  - constructor; [done|]. rewrite insert_by_key_perm.
    constructor; [lia|done].
Qed.

Lemma sort_by_key_sorted {A} (l : list (nat * A)) :
  StronglySorted (λ a b, a.1 ≤ b.1) (sort_by_key l).
Proof.
  induction l as [|x l IH]; simpl; [constructor|].
  by apply insert_by_key_sorted.
Qed.

(** Sorting values by a key function. *)
Lemma sort_with_key_perm (f : Z → nat) (l : list Z) :
  (sort_by_key ((λ v, (f v, v)) <$> l)).*2 ≡ₚ l.
Proof.
  rewrite sort_by_key_perm, <-list_fmap_compose.
  by rewrite (list_fmap_ext _ id l) by done; rewrite list_fmap_id.
Qed.

Lemma sort_with_key_sorted (f : Z → nat) (l : list Z) :
  StronglySorted (λ a b, f a ≤ f b) (sort_by_key ((λ v, (f v, v)) <$> l)).*2.
Proof.
  assert (Forall (λ p, p.1 = f p.2) (sort_by_key ((λ v, (f v, v)) <$> l))) as Hkeys.
  { rewrite sort_by_key_perm. apply Forall_fmap. by apply Forall_true. }
  pose proof (sort_by_key_sorted ((λ v, (f v, v)) <$> l)) as Hsorted.
  induction Hsorted as [|p k Hk IH Hp]; [constructor|].
  apply Forall_cons in Hkeys as [Hp1 Hkeys]. rewrite fmap_cons.
  constructor; [by apply IH|]. apply Forall_fmap.
  rewrite Forall_forall in Hp, Hkeys. apply Forall_forall. intros q Hq. simpl.
  rewrite <-Hp1, <-(Hkeys q Hq). by apply Hp.
Qed.

(** ** [count_constraints], [order_domain_values] and [is_valid] *)

Section heuristics_proofs.
Context `{!SetOrder, !NeighborIndex}.

Lemma count_constraints_loop_ok (nbrs : list Cell) (v : Z) (count : nat) (s : Store) :
  wf_store s → Forall valid_cell nbrs →
  count_constraints_loop nbrs v count s = Ok (count + constraint_score s nbrs v, s).
Proof.
  intros Hwf. revert count. unfold constraint_score.
  induction nbrs as [|n rest IH]; intros count Hnbrs; simpl.
  { by rewrite Nat.add_0_r. }
  apply Forall_cons in Hnbrs as [Hn Hrest].
  rewrite (bind_ok _ _ _ _ _ (get_domain_ok s n Hwf Hn)).
  rewrite filter_cons.
  destruct (decide (unassigned s n ∧ v ∈ dom s n)) as [Hyes|Hno].
  - rewrite (decide_True (P := 1 < size (dom s n) ∧ v ∈ dom s n)) by done.
    rewrite IH by done. rewrite length_cons. do 2 f_equal. lia.
  - rewrite (decide_False (P := 1 < size (dom s n) ∧ v ∈ dom s n)) by done.
    by rewrite IH.
Qed.

Lemma Forall_valid_neighbors (c : Cell) :
  valid_cell c → Forall valid_cell (neighbors c).
Proof.
  intros Hc. apply Forall_forall. intros n Hn.
  by apply (neighbors_valid c).
Qed.

Lemma get_neighbors_ok (c : Cell) (s : Store) :
  valid_cell c → get_neighbors c s = Ok (neighbors c, s).
Proof. intros Hc. unfold get_neighbors. by rewrite decide_True. Qed.

Lemma count_constraints_ok (c : Cell) (v : Z) (s : Store) :
  wf_store s → valid_cell c →
  count_constraints c v s = Ok (constraint_score s (neighbors c) v, s).
Proof.
  intros Hwf Hc. unfold count_constraints.
  rewrite (bind_ok _ _ _ _ _ (get_neighbors_ok c s Hc)).
  by rewrite count_constraints_loop_ok by (done || by apply Forall_valid_neighbors).
Qed.

Lemma with_keys_ok (c : Cell) (values : list Z) (s : Store) :
  wf_store s → valid_cell c →
  with_keys c values s =
    Ok ((λ v, (constraint_score s (neighbors c) v, v)) <$> values, s).
Proof.
  intros Hwf Hc. induction values as [|v rest IH]; [done|]. simpl.
  rewrite (bind_ok _ _ _ _ _ (count_constraints_ok c v s Hwf Hc)).
  by rewrite (bind_ok _ _ _ _ _ IH).
Qed.

Lemma order_domain_values_ok (c : Cell) (s : Store) :
  wf_store s → valid_cell c →
  order_domain_values c s = Ok (lcv_order s c, s).
Proof.
  intros Hwf Hc. unfold order_domain_values.
  rewrite (bind_ok _ _ _ _ _ (get_domain_ok s c Hwf Hc)).
  by rewrite (bind_ok _ _ _ _ _ (with_keys_ok c _ s Hwf Hc)).
Qed.

Lemma lcv_order_perm (s : Store) (c : Cell) : lcv_order s c ≡ₚ elements (dom s c).
Proof. unfold lcv_order. by rewrite sort_with_key_perm, set_iter_perm. Qed.

Lemma lcv_order_elem (s : Store) (c : Cell) (v : Z) :
  v ∈ lcv_order s c ↔ v ∈ dom s c.
Proof. by rewrite lcv_order_perm, elem_of_elements. Qed.

Lemma list_to_set_lcv_order (s : Store) (c : Cell) :
  list_to_set (lcv_order s c) = dom s c.
Proof.
  apply set_eq. intros v. by rewrite elem_of_list_to_set, lcv_order_elem.
Qed.

Lemma is_valid_loop_ok (nbrs : list Cell) (v : Z) (s : Store) :
  wf_store s → Forall valid_cell nbrs →
  is_valid_loop nbrs v s = Ok (bool_decide (conflict_free s nbrs v), s).
Proof.
  intros Hwf. induction nbrs as [|n rest IH]; intros Hnbrs; cbn [is_valid_loop].
  { rewrite bool_decide_eq_true_2; [done|]. constructor. }
  apply Forall_cons in Hnbrs as [Hn Hrest].
  rewrite (bind_ok _ _ _ _ _ (get_domain_ok s n Hwf Hn)).
  case_decide as Hconf.
  - rewrite bool_decide_eq_false_2; [done|].
    by intros [? _]%Forall_cons.
  - rewrite IH by done. f_equal. f_equal. apply bool_decide_ext.
    unfold conflict_free. rewrite Forall_cons. tauto.
Qed.

Lemma is_valid_ok (c : Cell) (v : Z) (s : Store) :
  wf_store s → valid_cell c →
  is_valid c v s = Ok (bool_decide (conflict_free s (neighbors c) v), s).
Proof.
  intros Hwf Hc. unfold is_valid.
  rewrite (bind_ok _ _ _ _ _ (get_neighbors_ok c s Hc)).
  by apply is_valid_loop_ok, Forall_valid_neighbors.
Qed.

End heuristics_proofs.

(** ** [forward_check] and [restore_domains] *)

Lemma difference_singleton_empty (d : Domain) (v : Z) :
  v ∈ d → d ∖ {[v]} = ∅ → d = {[v]}.
Proof.
  intros Hv Hempty. apply set_eq. intros w. rewrite elem_of_singleton.
  split; [|by intros ->]. intros Hw. destruct (decide (w = v)); [done|].
  assert (w ∈ d ∖ {[v]}) as Hin by set_solver. rewrite Hempty in Hin.
  by apply not_elem_of_empty in Hin.
Qed.

Lemma singleton_difference_empty (v : Z) : ({[v]} : Domain) ∖ {[v]} = ∅.
Proof. set_solver. Qed.

Lemma not_elem_of_difference_singleton (d : Domain) (v : Z) : v ∉ d ∖ {[v]}.
Proof. set_solver. Qed.

Lemma not_elem_singleton_ne (d : Domain) (v : Z) : v ∉ d → d ≠ {[v]}.
Proof. set_solver. Qed.

Section forward_check_proofs.
Context `{!SetOrder, !NeighborIndex}.

(** The loop of [forward_check]: [scanned] is the part of the neighbor list
    that was visited, all of it unless a domain became empty. *)
Lemma forward_check_loop_spec (nbrs : list Cell) (v : Z)
    (acc : list (Cell * Z)) (s : Store) :
  wf_store s → Forall valid_cell nbrs →
  ∃ ok rem s',
    forward_check_loop nbrs v acc s = Ok ((ok, acc ++ rem), s') ∧
    wf_store s' ∧ NoDup rem ∧
    (∀ n, dom s' n = if decide ((n, v) ∈ rem) then dom s n ∖ {[v]} else dom s n) ∧
    ∃ scanned,
      (∀ p, p ∈ rem ↔ p.2 = v ∧ p.1 ∈ scanned ∧ v ∈ dom s p.1) ∧
      if ok : bool then scanned = nbrs ∧ ∀ m, m ∈ nbrs → dom s m ≠ {[v]}
      else ∃ pre n post,
        nbrs = pre ++ n :: post ∧ scanned = pre ++ [n] ∧
        dom s n = {[v]} ∧ ∀ m, m ∈ pre → dom s m ≠ {[v]}.
Proof.
  intros Hwf Hnbrs. revert acc s Hwf.
  induction nbrs as [|n rest IH]; intros acc s Hwf.
  { exists true, [], s. rewrite app_nil_r. do 2 (split; [done|]).
    split; [constructor|]. split.
    { intros n. rewrite decide_False; [done|]. apply not_elem_of_nil. }
    exists []. split; [|split; [done|by intros m ?%elem_of_nil]].
    intros p. split; [by intros ?%elem_of_nil|]. by intros (_ & ?%elem_of_nil & _). }
  apply Forall_cons in Hnbrs as [Hn Hrest]. specialize (IH Hrest).
  cbn [forward_check_loop].
  rewrite (bind_ok _ _ _ _ _ (get_domain_ok s n Hwf Hn)).
  destruct (decide (v ∈ dom s n)) as [Hv|Hv].
  - rewrite (bind_ok _ _ _ _ _ (domain_remove_ok s n v Hwf Hn Hv)).
    set (s1 := upd s n (dom s n ∖ {[v]})).
    assert (wf_store s1) as Hwf1 by (by apply upd_wf).
    assert (∀ m, dom s1 m = if decide (m = n) then dom s n ∖ {[v]} else dom s m)
      as Hs1 by (intros m; by apply dom_upd).
    assert (v ∉ dom s1 n) as Hv1.
    { rewrite Hs1, decide_True by done. apply not_elem_of_difference_singleton. }
    rewrite (bind_ok _ _ _ _ _ (get_domain_ok s1 n Hwf1 Hn)).
    destruct (decide (dom s1 n = ∅)) as [Hempty|Hfull].
    + exists false, [(n, v)], s1. do 2 (split; [done|]).
      split; [apply NoDup_singleton|]. split.
      { intros m. rewrite Hs1. destruct (decide (m = n)) as [->|Hm].
        - rewrite decide_True; [done|]. by left.
        - rewrite decide_False; [done|]. by intros [= ->]%list_elem_of_singleton. }
      exists [n]. split.
      { intros [m w]. rewrite list_elem_of_singleton. simpl. split.
        - intros [= -> ->]. split; [done|]. split; [by left|done].
        - intros (-> & ->%list_elem_of_singleton & _). done. }
      exists [], n, rest. split; [done|]. split; [done|]. split; [|by intros m ?%elem_of_nil].
      rewrite Hs1, decide_True in Hempty by done.
      by apply difference_singleton_empty.
    + destruct (IH (acc ++ [(n, v)]) s1 Hwf1)
        as (ok & rem & s' & Hrun & Hwf' & Hnd & Hdom & scanned & Hrem & Hok).
      exists ok, ((n, v) :: rem), s'. split.
      { by rewrite Hrun, <-app_assoc. }
      split; [done|].
      assert ((n, v) ∉ rem) as Hfresh.
      { intros (_ & _ & Hin)%Hrem. done. }
      split; [by constructor|]. split.
      { intros m. rewrite Hdom, Hs1. destruct (decide (m = n)) as [->|Hm].
        - rewrite decide_False by done. rewrite decide_True; [done|]. by left.
        - destruct (decide ((m, v) ∈ rem)) as [Hin|Hin].
          + rewrite decide_True; [done|]. by right.
          + rewrite decide_False; [done|].
            intros [[= ->]|?]%elem_of_cons; done. }
      assert (dom s n ≠ {[v]}) as Hnv.
      { intros Heq. apply Hfull. rewrite Hs1, decide_True by done.
        rewrite Heq. apply singleton_difference_empty. }
      exists (n :: scanned). split.
      { intros [m w]. simpl. rewrite elem_of_cons, Hrem. simpl. split.
        - intros [[= -> ->]|(-> & Hsc & Hin)].
          + split; [done|]. split; [by left|done].
          + split; [done|]. split; [by right|].
            rewrite Hs1 in Hin. case_decide; [|done].
            by apply not_elem_of_difference_singleton in Hin.
        - intros (-> & Hsc & Hin). destruct (decide (m = n)) as [->|Hm]; [by left|].
          right. split; [done|]. rewrite Hs1, decide_False by done.
          apply elem_of_cons in Hsc as [?|?]; done. }
      destruct ok.
      * destruct Hok as [-> Hall]. split; [done|].
        intros m [->|Hm]%elem_of_cons; [done|].
        destruct (decide (m = n)) as [->|Hmn]; [done|].
        specialize (Hall m Hm). by rewrite Hs1, decide_False in Hall.
      * destruct Hok as (pre & n' & post & -> & -> & Hn' & Hpre).
        exists (n :: pre), n', post. split; [done|]. split; [done|].
        assert (n' ≠ n) as Hne.
        { intros ->. apply Hv1. rewrite Hn'. by apply elem_of_singleton. }
        split; [by rewrite Hs1, decide_False in Hn'|].
        intros m [->|Hm]%elem_of_cons; [done|].
        destruct (decide (m = n)) as [->|Hmn]; [done|].
        specialize (Hpre m Hm). by rewrite Hs1, decide_False in Hpre.
  - destruct (IH acc s Hwf)
      as (ok & rem & s' & Hrun & Hwf' & Hnd & Hdom & scanned & Hrem & Hok).
    exists ok, rem, s'. do 4 (split; [done|]).
    assert (dom s n ≠ {[v]}) as Hnv by (by apply not_elem_singleton_ne).
    exists (n :: scanned). split.
    { intros [m w]. rewrite Hrem. simpl. rewrite elem_of_cons.
      split; [naive_solver|]. intros (-> & [->|Hsc] & Hin); done. }
    destruct ok.
    + destruct Hok as [-> Hall]. split; [done|].
      intros m [->|Hm]%elem_of_cons; [done|by apply Hall].
    + destruct Hok as (pre & n' & post & -> & -> & Hn' & Hpre).
      exists (n :: pre), n', post. do 3 (split; [done|]).
      intros m [->|Hm]%elem_of_cons; [done|by apply Hpre].
Qed.

Lemma restore_domains_spec (removed : list (Cell * Z)) (s : Store) :
  wf_store s → Forall (λ p, valid_cell p.1) removed →
  ∃ s', restore_domains removed s = Ok ((), s') ∧ wf_store s' ∧
    ∀ n w, w ∈ dom s' n ↔ w ∈ dom s n ∨ (n, w) ∈ removed.
Proof.
  intros Hwf Hrem. revert s Hwf.
  induction removed as [|[c v] rest IH]; intros s Hwf.
  { exists s. do 2 (split; [done|]). intros n w. split; [by left|].
    by intros [?|?%elem_of_nil]. }
  apply Forall_cons in Hrem as [Hc Hrest]. simpl in Hc.
  cbn [restore_domains].
  rewrite (bind_ok _ _ _ _ _ (domain_add_ok s c v Hwf Hc)).
  destruct (IH Hrest (upd s c ({[v]} ∪ dom s c))) as (s' & Hrun & Hwf' & Hdom).
  { by apply upd_wf. }
  exists s'. do 2 (split; [done|]). intros n w.
  rewrite Hdom, dom_upd, elem_of_cons by done.
  destruct (decide (n = c)) as [->|Hn].
  - rewrite elem_of_union, elem_of_singleton. naive_solver.
  - naive_solver.
Qed.

Lemma forward_check_spec (c : Cell) (v : Z) (s : Store) :
  wf_store s → valid_cell c →
  ∃ ok removed s',
    forward_check c v s = Ok ((ok, removed), s') ∧ wf_store s' ∧ NoDup removed ∧
    (∀ n, dom s' n = if decide ((n, v) ∈ removed) then dom s n ∖ {[v]} else dom s n) ∧
    ∃ scanned,
      (∀ p, p ∈ removed ↔ p.2 = v ∧ p.1 ∈ scanned ∧ v ∈ dom s p.1) ∧
      if ok : bool then
        scanned = neighbors c ∧ ∀ m, m ∈ neighbors c → dom s m ≠ {[v]}
      else ∃ pre n post,
        neighbors c = pre ++ n :: post ∧ scanned = pre ++ [n] ∧
        dom s n = {[v]} ∧ ∀ m, m ∈ pre → dom s m ≠ {[v]}.
Proof.
  intros Hwf Hc. unfold forward_check.
  rewrite (bind_ok _ _ _ _ _ (get_neighbors_ok c s Hc)).
  apply (forward_check_loop_spec (neighbors c) v [] s Hwf).
  by apply Forall_valid_neighbors.
Qed.

(** What [forward_check] removed is a list of neighbors. *)
Lemma removed_neighbors (c : Cell) (v : Z) (s : Store) (ok : bool)
    (removed : list (Cell * Z)) (s' : Store) :
  wf_store s → valid_cell c →
  forward_check c v s = Ok ((ok, removed), s') →
  ∀ p, p ∈ removed → p.2 = v ∧ p.1 ∈ neighbors c ∧ v ∈ dom s p.1.
Proof.
  intros Hwf Hc Hrun.
  destruct (forward_check_spec c v s Hwf Hc)
    as (ok' & removed' & s'' & Hrun' & _ & _ & _ & scanned & Hrem & Hok).
  rewrite Hrun in Hrun'. injection Hrun' as ? ? ?. subst ok' removed' s''.
  intros p (Hv & Hsc & Hin)%Hrem. split; [done|]. split; [|done].
  destruct ok.
  - destruct Hok as [-> _]. done.
  - destruct Hok as (pre & n & post & -> & -> & _).
    apply elem_of_app in Hsc as [?|Hn%list_elem_of_singleton];
      apply elem_of_app; [by left|right; rewrite Hn; by left].
Qed.

(** Undoing a forward check gives back the store it started from. *)
Lemma forward_check_restore (c : Cell) (v : Z) (s : Store) (ok : bool)
    (removed : list (Cell * Z)) (s' : Store) :
  wf_store s → valid_cell c →
  forward_check c v s = Ok ((ok, removed), s') →
  restore_domains removed s' = Ok ((), s).
Proof.
  intros Hwf Hc Hrun.
  pose proof (removed_neighbors c v s ok removed s' Hwf Hc Hrun) as Hnb.
  destruct (forward_check_spec c v s Hwf Hc)
    as (ok' & removed' & s'' & Hrun' & Hwf' & _ & Hdom & _).
  rewrite Hrun in Hrun'. injection Hrun' as ? ? ?. subst ok' removed' s''.
  destruct (restore_domains_spec removed s' Hwf') as (s2 & Hrun2 & Hwf2 & Hdom2).
  { apply Forall_forall. intros p Hp. apply (neighbors_valid c); [done|].
    by apply Hnb. }
  rewrite Hrun2. do 2 f_equal. apply store_ext; [done..|].
  intros n Hn. apply set_eq. intros w. rewrite Hdom2, Hdom.
  destruct (decide ((n, v) ∈ removed)) as [Hin|Hin].
  - destruct (Hnb _ Hin) as (_ & _ & Hvn). simpl in Hvn.
    rewrite elem_of_difference, elem_of_singleton. split.
    + intros [[? _]|Hw]; [done|].
      destruct (Hnb _ Hw) as (Hwv & _). simpl in Hwv. by subst.
    + intros Hw. destruct (decide (w = v)) as [->|]; [by right|by left].
  - split; [|by left]. intros [?|Hw]; [done|].
    destruct (Hnb _ Hw) as (Hwv & _). simpl in Hwv. by subst.
Qed.

End forward_check_proofs.

(** ** [backtrack] *)

Lemma length_filter_mono {A} (P Q : A → Prop)
    `{!∀ x, Decision (P x), !∀ x, Decision (Q x)} (l : list A) :
  (∀ x, x ∈ l → P x → Q x) → length (filter P l) ≤ length (filter Q l).
Proof.
  induction l as [|y l IH]; intros HPQ; [done|].
  rewrite !filter_cons.
  assert (length (filter P l) ≤ length (filter Q l)) as Hle.
  { apply IH. intros x Hx. apply HPQ. by right. }
  destruct (decide (P y)) as [Hy|Hy].
  - rewrite decide_True by (apply HPQ; [by left|done]). simpl. lia.
  - destruct (decide (Q y)); simpl; lia.
Qed.

Lemma length_filter_strict {A} (P Q : A → Prop)
    `{!∀ x, Decision (P x), !∀ x, Decision (Q x)} (l : list A) (x0 : A) :
  x0 ∈ l → Q x0 → ¬ P x0 → (∀ x, x ∈ l → P x → Q x) →
  length (filter P l) < length (filter Q l).
Proof.
  induction l as [|y l IH]; intros Hin HQ HP HPQ; [by apply elem_of_nil in Hin|].
  rewrite !filter_cons.
  assert (length (filter P l) ≤ length (filter Q l)) as Hle.
  { apply length_filter_mono. intros x Hx. apply HPQ. by right. }
  apply elem_of_cons in Hin as [<-|Hin].
  - rewrite decide_False, decide_True by done. simpl. lia.
  - assert (length (filter P l) < length (filter Q l)) as Hlt.
    { apply IH; [done..|]. intros x Hx. apply HPQ. by right. }
    destruct (decide (P y)) as [Hy|Hy].
    + rewrite decide_True by (apply HPQ; [by left|done]). simpl. lia.
    + destruct (decide (Q y)); simpl; lia.
Qed.

Lemma frame_refl (s : Store) : wf_store s → frame s s.
Proof. intros Hwf. split; [done|]. split; [apply shrinks_refl|done]. Qed.

Lemma loop_frame_refl (c : Cell) (s : Store) : wf_store s → loop_frame c s s.
Proof. intros Hwf. split; [done|]. intros x _. done. Qed.

Lemma unassigned_mono (d d' : Domain) : d' ⊆ d → 1 < size d' → 1 < size d.
Proof. intros Hsub Hd'. apply subseteq_size in Hsub. lia. Qed.

Lemma loop_frame_trans (c : Cell) (s1 s2 s3 : Store) :
  loop_frame c s1 s2 → loop_frame c s2 s3 → loop_frame c s1 s3.
Proof.
  intros [_ H12] [Hwf H23]. split; [done|]. intros x Hx.
  destruct (H12 x Hx) as (Hsub & Hset & Hne).
  destruct (H23 x Hx) as (Hsub' & Hset' & Hne').
  split; [by etrans|]. split; [|by auto].
  intros Hun. rewrite Hset', Hset; [done..|].
  unfold unassigned. by rewrite Hset.
Qed.

Lemma unassigned_count_bound (s : Store) : unassigned_count s ≤ 81.
Proof.
  unfold unassigned_count.
  etrans; [apply length_filter|]. by vm_compute.
Qed.

Lemma others_unassigned_lt (s : Store) (c : Cell) :
  valid_cell c → unassigned s c → others_unassigned s c < unassigned_count s.
Proof.
  intros Hc Hun. unfold others_unassigned, unassigned_count.
  apply (length_filter_strict _ _ _ c); [by apply elem_of_all_cells|done|tauto|tauto].
Qed.

Lemma size_le_1_not_unassigned (s : Store) (c : Cell) (v : Z) :
  dom s c = {[v]} → ¬ unassigned s c.
Proof. unfold unassigned. intros ->. rewrite size_singleton. lia. Qed.

Lemma difference_singleton_nonempty (d : Domain) (v : Z) :
  1 < size d → d ∖ {[v]} ≠ ∅.
Proof.
  intros Hd Hempty. assert (size (d ∖ {[v]}) = 0) as Hz by (by rewrite Hempty).
  rewrite size_difference_alt in Hz.
  assert (size (d ∩ {[v]}) ≤ 1) as Hle.
  { rewrite <-(size_singleton (C := Domain) v). apply subseteq_size. set_solver. }
  lia.
Qed.

(** One tentative assignment whose recursive call has returned: seen from
    the other cells it is a search step. *)
Lemma attempt_frame (c : Cell) (v : Z) (s s2 s3 : Store) (removed : list (Cell * Z)) :
  dom s2 c = {[v]} →
  (∀ x w, (x, w) ∈ removed → w = v ∧ x ≠ c ∧ unassigned s x ∧ v ∈ dom s x) →
  (∀ x, x ≠ c →
    dom s2 x = if decide ((x, v) ∈ removed) then dom s x ∖ {[v]} else dom s x) →
  frame s2 s3 →
  loop_frame c s s3 ∧ dom s3 c = {[v]}.
Proof.
  intros Hc Hrem Hdom (Hwf3 & Hsh & Hset & Hne). split; [split; [done|]|].
  - intros x Hx. specialize (Hdom x Hx). split; [|split].
    + etrans; [apply Hsh|]. rewrite Hdom. case_decide; set_solver.
    + intros Hun. assert ((x, v) ∉ removed) as Hnot.
      { intros Hin. by destruct (Hrem _ _ Hin) as (_ & _ & ? & _). }
      rewrite decide_False in Hdom by done. rewrite <-Hdom. apply Hset.
      unfold unassigned. by rewrite Hdom.
    + intros Hx0. apply Hne. rewrite Hdom. case_decide as Hin; [|done].
      destruct (Hrem _ _ Hin) as (_ & _ & Hun & _).
      by apply difference_singleton_nonempty.
  - rewrite <-Hc. apply Hset. by eapply size_le_1_not_unassigned.
Qed.

(** The same attempt after [restore_domains] has put the removed values
    back. *)
Lemma undo_frame (c : Cell) (v : Z) (s s2 s3 s4 : Store) (removed : list (Cell * Z)) :
  dom s2 c = {[v]} →
  (∀ x w, (x, w) ∈ removed → w = v ∧ x ≠ c ∧ unassigned s x ∧ v ∈ dom s x) →
  (∀ x, x ≠ c →
    dom s2 x = if decide ((x, v) ∈ removed) then dom s x ∖ {[v]} else dom s x) →
  frame s2 s3 → wf_store s4 →
  (∀ n w, w ∈ dom s4 n ↔ w ∈ dom s3 n ∨ (n, w) ∈ removed) →
  loop_frame c s s4 ∧ dom s4 c = {[v]}.
Proof.
  intros Hc Hrem Hdom Hframe Hwf4 Hdom4.
  destruct (attempt_frame c v s s2 s3 removed Hc Hrem Hdom Hframe)
    as [[_ Hf3] Hc3].
  split; [split; [done|]|].
  - intros x Hx. destruct (Hf3 x Hx) as (Hsub & Hset & Hne). split; [|split].
    + intros w [Hw|Hw]%Hdom4; [by apply Hsub|].
      by destruct (Hrem _ _ Hw) as (-> & _ & _ & ?).
    + intros Hun. rewrite <-(Hset Hun). apply set_eq. intros w. rewrite Hdom4.
      split; [|by left]. intros [?|Hw]; [done|].
      by destruct (Hrem _ _ Hw) as (_ & _ & ? & _).
    + intros Hx0. specialize (Hne Hx0). intros Hempty. apply Hne.
      apply set_eq. intros w. split; [|by intros ?%not_elem_of_empty].
      intros Hw. rewrite <-Hempty. apply Hdom4. by left.
  - rewrite <-Hc3. apply set_eq. intros w. rewrite Hdom4.
    split; [|by left]. intros [?|Hw]; [done|].
    by destruct (Hrem _ _ Hw) as (_ & ? & _).
Qed.

Section backtrack_proofs.
Context `{!SetOrder, !NeighborIndex}.

(** After [is_valid], the assignment and its forward check cannot empty a
    domain: exactly the unassigned neighbors that hold [v] lose it. *)
Lemma assign_forward_check (c : Cell) (v : Z) (s : Store) :
  wf_store s → valid_cell c → conflict_free s (neighbors c) v →
  ∃ removed s2,
    forward_check c v (upd s c {[v]}) = Ok ((true, removed), s2) ∧
    wf_store s2 ∧ Forall (λ p, valid_cell p.1) removed ∧
    dom s2 c = {[v]} ∧
    (∀ x w, (x, w) ∈ removed → w = v ∧ x ≠ c ∧ unassigned s x ∧ v ∈ dom s x) ∧
    (∀ x, x ≠ c →
      dom s2 x = if decide ((x, v) ∈ removed) then dom s x ∖ {[v]} else dom s x).
Proof.
  intros Hwf Hc Hfree.
  assert (wf_store (upd s c {[v]})) as Hwf1 by (by apply upd_wf).
  assert (∀ n, n ∈ neighbors c → n ≠ c ∧ dom (upd s c {[v]}) n = dom s n) as Hnb.
  { intros n Hn. assert (n ≠ c) as Hne.
    { intros ->. by apply (neighbors_irrefl c). }
    split; [done|]. by apply dom_upd_ne. }
  unfold conflict_free in Hfree. rewrite Forall_forall in Hfree.
  destruct (forward_check_spec c v _ Hwf1 Hc)
    as (ok & removed & s2 & Hrun & Hwf2 & _ & Hdom & scanned & Hrem & Hok).
  destruct ok; cycle 1.
  { exfalso. destruct Hok as (pre & n & post & Hsplit & _ & Hn & _).
    assert (n ∈ neighbors c) as Hin.
    { rewrite Hsplit. apply elem_of_app. right. by left. }
    destruct (Hnb n Hin) as [_ Heq]. rewrite Heq in Hn.
    apply (Hfree n Hin). rewrite Hn. split; [apply size_singleton|].
    by apply elem_of_singleton. }
  destruct Hok as [-> _].
  assert (∀ x w, (x, w) ∈ removed →
    w = v ∧ x ≠ c ∧ unassigned s x ∧ v ∈ dom s x) as Hremoved.
  { intros x w (Hw & Hx & Hv)%Hrem. simpl in *.
    destruct (Hnb x Hx) as [Hne Heq]. rewrite Heq in Hv.
    split; [done|]. split; [done|]. split; [|done].
    unfold unassigned. pose proof (Hfree x Hx) as Hnot.
    assert (size (dom s x) ≠ 0) as Hpos.
    { intros Hz%size_empty_iff%leibniz_equiv. rewrite Hz in Hv.
      by apply not_elem_of_empty in Hv. }
    destruct (decide (size (dom s x) = 1)); [tauto|lia]. }
  exists removed, s2. split; [done|]. split; [done|]. split.
  { apply Forall_forall. intros [x w] Hp. simpl.
    apply (neighbors_valid c); [done|]. by apply Hrem in Hp as (_ & ? & _). }
  split.
  { rewrite Hdom, decide_False; [by apply dom_upd_eq|].
    intros Hin. by destruct (Hremoved _ _ Hin) as (_ & ? & _). }
  split; [done|].
  intros x Hx. by rewrite Hdom, dom_upd_ne.
Qed.

(** The loop over the candidate values of cell [c]. *)
Lemma try_values_spec (recurse : M bool) (k : nat) (c : Cell) :
  search_spec recurse k → valid_cell c →
  ∀ values s, wf_store s → others_unassigned s c < k →
  ∃ b s',
    try_values recurse c values s = Ok (b, s') ∧ loop_frame c s s' ∧
    ((b = false ∧ s' = s ∧ ∀ v, v ∈ values → ¬ conflict_free s (neighbors c) v) ∨
     (∃ v, v ∈ values ∧ dom s' c = {[v]})) ∧
    (b = true → all_settled s').
Proof.
  intros Hrec Hc. induction values as [|v rest IH]; intros s Hwf Hk.
  { exists false, s. split; [done|]. split; [by apply loop_frame_refl|].
    split; [|done]. left. do 2 (split; [done|]). by intros v ?%elem_of_nil. }
  cbn [try_values]. rewrite (bind_ok _ _ _ _ _ (is_valid_ok c v s Hwf Hc)).
  destruct (decide (conflict_free s (neighbors c) v)) as [Hfree|Hfree]; cycle 1.
  { rewrite bool_decide_eq_false_2 by done.
    destruct (IH s Hwf Hk) as (b & s' & Hrun & Hframe & Hcell & Hsolved).
    exists b, s'. do 2 (split; [done|]). split; [|done].
    destruct Hcell as [(-> & -> & Hnone)|(w & Hw & Hdom)].
    - left. do 2 (split; [done|]). intros w [->|Hw]%elem_of_cons; [done|].
      by apply Hnone.
    - right. exists w. split; [by right|done]. }
  rewrite bool_decide_eq_true_2 by done.
  rewrite (bind_ok _ _ _ _ _ (set_domain_ok s c {[v]} Hwf Hc)).
  destruct (assign_forward_check c v s Hwf Hc Hfree)
    as (removed & s2 & Hfc & Hwf2 & Hvalid & Hc2 & Hrem & Hdom2).
  rewrite (bind_ok _ _ _ _ _ Hfc). cbn beta iota.
  destruct (Hrec s2 Hwf2) as (b3 & s3 & Hrun3 & Hframe3 & Hsolved3).
  { eapply Nat.le_lt_trans; [|exact Hk].
    apply length_filter_mono. intros x _ Hun.
    destruct (decide (x = c)) as [->|Hx].
    - exfalso. by apply (size_le_1_not_unassigned s2 c v).
    - split; [done|]. revert Hun. unfold unassigned. rewrite (Hdom2 x Hx).
      apply unassigned_mono. case_decide; set_solver. }
  rewrite (bind_ok _ _ _ _ _ Hrun3).
  destruct b3.
  { destruct (attempt_frame c v s s2 s3 removed Hc2 Hrem Hdom2 Hframe3)
      as [Hf3 Hc3].
    exists true, s3. do 2 (split; [done|]). split; [|by auto].
    right. exists v. split; [by left|done]. }
  pose proof Hframe3 as (Hwf3 & _).
  rewrite (bind_ok _ _ _ _ _ (order_domain_values_ok c s3 Hwf3 Hc)).
  rewrite (bind_ok _ _ _ _ _ (set_domain_ok s3 c _ Hwf3 Hc)).
  rewrite list_to_set_lcv_order, upd_same by done.
  destruct (restore_domains_spec removed s3 Hwf3 Hvalid) as (s4 & Hrun4 & Hwf4 & Hdom4).
  rewrite (bind_ok _ _ _ _ _ Hrun4).
  destruct (undo_frame c v s s2 s3 s4 removed Hc2 Hrem Hdom2 Hframe3 Hwf4 Hdom4)
    as [Hf4 Hc4].
  destruct (IH s4 Hwf4) as (b & s' & Hrun & Hframe & Hcell & Hsolved).
  { eapply Nat.le_lt_trans; [|exact Hk].
    apply length_filter_mono. intros x _ [Hx Hun]. split; [done|].
    destruct Hf4 as [_ Hf4]. destruct (Hf4 x Hx) as (Hsub & _).
    by eapply unassigned_mono. }
  exists b, s'. split; [done|]. split; [by eapply loop_frame_trans|].
  split; [|done]. right.
  destruct Hcell as [(_ & -> & _)|(w & Hw & Hdom)].
  - exists v. split; [by left|done].
  - exists w. split; [by right|done].
Qed.

(** [backtrack] with enough fuel for the unassigned cells of the store. *)
Lemma backtrack_fuel_spec (fuel : nat) : search_spec (backtrack_fuel fuel) fuel.
Proof.
  induction fuel as [|fuel IH]; intros s Hwf Hcount; [lia|].
  cbn [backtrack_fuel].
  destruct (find_empty_cell_spec s Hwf) as (r & Hfind & Hr).
  rewrite (bind_ok _ _ _ _ _ Hfind). destruct r as [c|]; cycle 1.
  { exists true, s. split; [done|]. split; [by apply frame_refl|].
    intros _ c. destruct (decide (valid_cell c)) as [Hc|Hc]; [by apply Hr|].
    unfold unassigned. rewrite dom_outside by done. rewrite size_empty. lia. }
  destruct Hr as (pre & post & Hsplit & Hun & _).
  assert (valid_cell c) as Hc.
  { apply elem_of_all_cells. rewrite Hsplit. apply elem_of_app. right. by left. }
  rewrite (bind_ok _ _ _ _ _ (order_domain_values_ok c s Hwf Hc)).
  destruct (try_values_spec (backtrack_fuel fuel) fuel c IH Hc (lcv_order s c) s Hwf)
    as (b & s' & Hrun & [Hwf' Hframe] & Hcell & Hsolved).
  { pose proof (others_unassigned_lt s c Hc Hun). lia. }
  exists b, s'. split; [done|]. split; [|done].
  assert (dom s' c ⊆ dom s c ∧ (dom s c ≠ ∅ → dom s' c ≠ ∅)) as [Hsubc Hnec].
  { destruct Hcell as [(_ & -> & _)|(w & Hw & Hdom)]; [done|].
    rewrite Hdom. apply lcv_order_elem in Hw. split; [set_solver|].
    intros _. apply (non_empty_singleton_L (C := Domain)). }
  split; [done|]. split; [|split].
  - intros x. destruct (decide (x = c)) as [->|Hx]; [done|].
    by destruct (Hframe x Hx) as (? & _).
  - intros x Hx. destruct (decide (x = c)) as [->|Hne]; [done|].
    destruct (Hframe x Hne) as (_ & Hset & _). by apply Hset.
  - intros x Hx. destruct (decide (x = c)) as [->|Hne]; [by apply Hnec|].
    destruct (Hframe x Hne) as (_ & _ & Hnon). by apply Hnon.
Qed.

Lemma backtrack_spec (s : Store) :
  wf_store s →
  ∃ b s', backtrack s = Ok (b, s') ∧ frame s s' ∧ (b = true → all_settled s').
Proof.
  intros Hwf. apply backtrack_fuel_spec; [done|].
  pose proof (unassigned_count_bound s). lia.
Qed.

(** A failed search that tried a value leaves the selected cell with the
    last value tried. *)
Lemma backtrack_fuel_failure (fuel : nat) (s s' : Store) (c : Cell) (v : Z) :
  wf_store s → unassigned_count s < S fuel →
  find_empty_cell s = Ok (Some c, s) →
  v ∈ dom s c → conflict_free s (neighbors c) v →
  backtrack_fuel (S fuel) s = Ok (false, s') →
  ∃ w, w ∈ dom s c ∧ dom s' c = {[w]}.
Proof.
  intros Hwf Hcount Hfind Hv Hfree. cbn [backtrack_fuel].
  rewrite (bind_ok _ _ _ _ _ Hfind).
  destruct (find_empty_cell_spec s Hwf) as (r & Hfind' & Hr).
  rewrite Hfind in Hfind'. injection Hfind' as <-.
  destruct Hr as (pre & post & Hsplit & Hun & _).
  assert (valid_cell c) as Hc.
  { apply elem_of_all_cells. rewrite Hsplit. apply elem_of_app. right. by left. }
  rewrite (bind_ok _ _ _ _ _ (order_domain_values_ok c s Hwf Hc)).
  destruct (try_values_spec (backtrack_fuel fuel) fuel c (backtrack_fuel_spec fuel)
    Hc (lcv_order s c) s Hwf) as (b & s2 & Hrun & _ & Hcell & _).
  { pose proof (others_unassigned_lt s c Hc Hun). lia. }
  rewrite Hrun. intros [= -> ->].
  destruct Hcell as [(_ & _ & Hnone)|(w & Hw & Hdom)].
  - exfalso. apply (Hnone v); [|done]. by apply lcv_order_elem.
  - exists w. split; [|done]. by apply lcv_order_elem in Hw.
Qed.

End backtrack_proofs.


(** ** Evaluation on concrete stores *)

(** Closed side conditions on the example stores are decided by
    evaluation. *)
Ltac by_evaluation := apply (bool_decide_unpack _); vm_compute; exact I.

(** The same for a property of the store [x] that a run left, computed
    once, and for the value a run returned. *)
Ltac by_evaluation_at x :=
  apply (bool_decide_unpack _); pattern x; vm_compute; exact I.
Ltac by_run := apply value_of_Some; vm_compute; reflexivity.

(** ** Soundness of [ac3] *)

Lemma units_are_peers :
  Forall (λ u, length u = 9 ∧ NoDup u ∧
    Forall (λ c, valid_cell c ∧ Forall (λ c', c = c' ∨ peer c c') u) u) units.
Proof. by_evaluation. Qed.

Lemma digit_singleton (v : Z) : digit {[v]} = v.
Proof. unfold digit. by rewrite elements_singleton. Qed.

Lemma elem_of_digits_1_9 (v : Z) : (1 ≤ v ≤ 9)%Z → v ∈ digits_1_9.
Proof.
  intros Hv. unfold digits_1_9.
  assert (v = 1 ∨ v = 2 ∨ v = 3 ∨ v = 4 ∨ v = 5 ∨ v = 6 ∨ v = 7 ∨ v = 8 ∨ v = 9)%Z
    as Hcases by lia.
  repeat (destruct Hcases as [->|Hcases]; [set_solver|]). subst. set_solver.
Qed.

Section soundness.
Context `{!SetOrder, !NeighborIndex}.

(** A store of singletons whose arcs are all stable is a valid grid. *)
Lemma stable_assigned_valid (s : Store) :
  (∀ a, a ∈ get_all_arcs → stable s a) → all_assigned s → digits_only s →
  valid_grid s.
Proof.
  intros Hstable Hall Hdigits. unfold valid_grid.
  pose proof units_are_peers as Hunits. rewrite Forall_forall in Hunits.
  apply Forall_forall. intros u Hu.
  destruct (Hunits u Hu) as (Hlen & Hnd & Hpeers). rewrite Forall_forall in Hpeers.
  assert (∀ c, c ∈ u → ∃ v, dom s c = {[v]} ∧ (1 ≤ v ≤ 9)%Z) as Hval.
  { intros c Hc. destruct (Hpeers c Hc) as [Hvc _].
    destruct (proj1 (size_1_singleton _) (Hall c Hvc)) as [v Hv].
    exists v. split; [done|]. apply (Hdigits c). rewrite Hv.
    by apply elem_of_singleton. }
  apply submseteq_length_Permutation; [|by rewrite length_fmap, Hlen].
  apply NoDup_submseteq.
  - apply NoDup_fmap_2_strong; [|done]. intros x y Hx Hy Heq.
    destruct (Hpeers x Hx) as [Hvx Hxp]. rewrite Forall_forall in Hxp.
    destruct (Hxp y Hy) as [|Hpeer]; [done|]. exfalso.
    destruct (Hval x Hx) as (v & Hv & _). destruct (Hval y Hy) as (w & Hw & _).
    rewrite Hv, Hw, !digit_singleton in Heq. subst w.
    destruct (Hpeers y Hy) as [Hvy _].
    apply (Hstable (x, y)).
    + apply get_all_arcs_spec. split; [done|]. by apply neighbors_spec.
    + unfold revisable. simpl. rewrite Hv, Hw. split; [apply size_singleton|].
      intros Hmeet. assert (v ∈ ({[v]} : Domain) ∩ {[v]}) as Hin.
      { apply elem_of_intersection. split; by apply elem_of_singleton. }
      rewrite Hmeet in Hin. by apply not_elem_of_empty in Hin.
  - intros x (c & -> & Hc)%list_elem_of_fmap.
    destruct (Hval c Hc) as (v & Hv & Hrange). rewrite Hv, digit_singleton.
    by apply elem_of_digits_1_9.
Qed.

(** When [ac3] returns true, every cell holds one digit and every row,
    column and box holds each digit 1-9 once. *)
Lemma ac3_sound (s : Store) :
  wf_store s → digits_only s →
  ∃ b s', ac3 s = Ok (b, s') ∧ (b = true → all_assigned s' ∧ valid_grid s').
Proof.
  intros Hwf Hdigits.
  destruct (ac3_exit_of_spec s Hwf) as (e & s' & Hrun & _ & Hsh & He).
  exists (ac3_result e), s'. split.
  { unfold ac3. by rewrite (bind_ok _ _ _ _ _ Hrun). }
  destruct e; [done| |done]. intros _. destruct He as [Hstable Hall].
  split; [done|]. apply stable_assigned_valid; [done..|].
  intros c v Hv. apply (Hdigits c). by apply Hsh.
Qed.

End soundness.

(** ** Unsolvable and mis-solved puzzles *)

Lemma digit_subseteq_singleton (d : Domain) (v : Z) :
  d ⊆ {[v]} → digit d = 0%Z ∨ digit d = v.
Proof.
  intros Hsub. destruct (decide (v ∈ d)) as [Hv|Hv].
  - right. replace d with ({[v]} : Domain); [apply digit_singleton|].
    apply set_eq. intros w. rewrite elem_of_singleton. split.
    + by intros ->.
    + intros Hw. specialize (Hsub w Hw). by apply elem_of_singleton in Hsub.
  - left. replace d with (∅ : Domain); [done|].
    apply set_eq. intros w. split; [by intros ?%not_elem_of_empty|].
    intros Hw. specialize (Hsub w Hw) as Hwv. apply elem_of_singleton in Hwv.
    by subst.
Qed.

Lemma all_ones_domains :
  Forall (λ c, dom (initial_store all_ones) c = {[1%Z]}) all_cells.
Proof. by_evaluation. Qed.

(** No valid grid has two ones in its first row. *)
Lemma all_ones_unsolvable : ¬ solvable (initial_store all_ones).
Proof.
  intros (t & Hwf & Hsh & Hvalid). unfold valid_grid in Hvalid.
  rewrite Forall_forall in Hvalid.
  assert (row_cells 0 ∈ units) as Hrow by (by vm_compute; left).
  specialize (Hvalid _ Hrow).
  assert (2%Z ∈ (λ c, digit (dom t c)) <$> row_cells 0) as Hin.
  { rewrite Hvalid. unfold digits_1_9. set_solver. }
  apply list_elem_of_fmap in Hin as (c & Hdigit & Hc).
  assert (valid_cell c) as Hvc.
  { apply list_elem_of_fmap in Hc as (k & -> & Hk). apply elem_of_seq in Hk.
    unfold valid_cell. simpl. lia. }
  pose proof all_ones_domains as Hones. rewrite Forall_forall in Hones.
  specialize (Hones c (proj2 (elem_of_all_cells c) Hvc)).
  specialize (Hsh c). rewrite Hones in Hsh.
  destruct (digit_subseteq_singleton _ _ Hsh) as [Hz|Hz]; rewrite Hz in Hdigit; done.
Qed.

Lemma blank_domains :
  Forall (λ c, size (dom (initial_store blank) c) = 9) all_cells.
Proof. by_evaluation_at (initial_store blank). Qed.

Section any_runtime.
Context `{!SetOrder, !NeighborIndex}.

(** With every cell given as 1 no cell is unassigned: [backtrack] returns
    true at once, whatever the iteration orders. *)
Lemma backtrack_all_ones :
  backtrack (initial_store all_ones) = Ok (true, initial_store all_ones).
Proof.
  assert (find_empty_cell (initial_store all_ones)
    = Ok (None, initial_store all_ones)) as Hfind by (vm_compute; reflexivity).
  unfold backtrack. cbn [backtrack_fuel]. by rewrite (bind_ok _ _ _ _ _ Hfind).
Qed.

(** On that store the first arc popped by [ac3] empties a domain. *)
Lemma ac3_all_ones :
  ∃ xi, valid_cell xi ∧
    ac3_exit_of (initial_store all_ones)
      = Ok (ExitEmptyDomain, upd (initial_store all_ones) xi ∅).
Proof.
  set (st := initial_store all_ones).
  assert (wf_store st) as Hwf by by_evaluation.
  assert (∀ c, valid_cell c → dom st c = {[1%Z]}) as Hones.
  { intros c Hc%elem_of_all_cells. revert c Hc. apply Forall_forall.
    apply all_ones_domains. }
  assert (((0, 0), (0, 1)) ∈ get_all_arcs) as Harc.
  { apply get_all_arcs_spec. split; [by_evaluation|].
    apply neighbors_spec; [by_evaluation|]. split; by_evaluation. }
  unfold ac3_exit_of, ac3_run, ac3_bound.
  destruct get_all_arcs as [|[xi xj] q] eqn:Harcs; [by apply elem_of_nil in Harc|].
  assert ((xi, xj) ∈ get_all_arcs) as Hfirst by (rewrite Harcs; left).
  destruct (arc_valid _ _ Hfirst) as (Hi & Hj & Hne).
  exists xi. split; [done|].
  rewrite length_cons, Nat.add_succ_r. cbn [ac3_loop]. rewrite run_bind.
  rewrite (bind_ok _ _ _ _ _ (revise_ok xi xj st Hwf Hi Hj)).
  assert (revisable st xi xj) as Hrev.
  { unfold revisable. rewrite (Hones xi Hi), (Hones xj Hj).
    split; [apply size_singleton|]. intros Hmeet.
    assert (1%Z ∈ ({[1%Z]} : Domain) ∩ {[1%Z]}) as Hin.
    { apply elem_of_intersection. split; by apply elem_of_singleton. }
    rewrite Hmeet in Hin. by apply not_elem_of_empty in Hin. }
  rewrite bool_decide_eq_true_2 by done.
  assert (revise_store st xi xj = upd st xi ∅) as ->.
  { unfold revise_store. rewrite decide_True by apply Hrev.
    by rewrite (Hones xi Hi), (Hones xj Hj), singleton_difference_empty. }
  rewrite (bind_ok _ _ _ _ _ (get_domain_ok _ xi (upd_wf st xi ∅ Hwf) Hi)).
  by rewrite dom_upd_eq, decide_True by done.
Qed.

(** [main] then reports a solution, on a store with an empty domain. *)
Lemma main_all_ones :
  ∃ s' c, main (initial_store all_ones) = Ok (SolvedByBacktracking, s') ∧
    valid_cell c ∧ dom s' c = ∅.
Proof.
  set (st := initial_store all_ones).
  assert (wf_store st) as Hwf by by_evaluation.
  destruct ac3_all_ones as (xi & Hi & Hexit). fold st in Hexit.
  assert (wf_store (upd st xi ∅)) as Hwf1 by (by apply upd_wf).
  exists (upd st xi ∅), xi. split; [|split; [done|by apply dom_upd_eq]].
  assert (ac3 st = Ok (false, upd st xi ∅)) as Hac3.
  { unfold ac3. by rewrite (bind_ok _ _ _ _ _ Hexit). }
  unfold main. rewrite (bind_ok _ _ _ _ _ Hac3).
  destruct (find_empty_cell_spec _ Hwf1) as (r & Hfind & Hr).
  destruct r as [c|].
  { exfalso. destruct Hr as (pre & post & Hsplit & Hun & _).
    unfold unassigned in Hun. rewrite dom_upd in Hun by done.
    case_decide; [rewrite size_empty in Hun; lia|].
    destruct (decide (valid_cell c)) as [Hc|Hc].
    - pose proof all_ones_domains as Hones. rewrite Forall_forall in Hones.
      fold st in Hones. rewrite (Hones c), size_singleton in Hun; [lia|].
      by apply elem_of_all_cells.
    - rewrite dom_outside, size_empty in Hun by done. lia. }
  assert (backtrack (upd st xi ∅) = Ok (true, upd st xi ∅)) as Hsearch.
  { unfold backtrack. cbn [backtrack_fuel]. by rewrite (bind_ok _ _ _ _ _ Hfind). }
  by rewrite (bind_ok _ _ _ _ _ Hsearch).
Qed.

(** When no arc is revisable the worklist loop only pops. *)
Lemma ac3_loop_stable (fuel : nat) (queue : list Arc) (s : Store) :
  wf_store s → length queue ≤ fuel →
  (∀ a, a ∈ queue → a ∈ get_all_arcs ∧ stable s a) →
  ac3_loop fuel queue s = Ok (true, s).
Proof.
  intros Hwf. revert fuel. induction queue as [|[xi xj] q IH]; intros fuel Hfuel Hq.
  { by destruct fuel. }
  destruct fuel as [|fuel]; [simpl in Hfuel; lia|].
  destruct (Hq (xi, xj)) as [Harc Hstable]; [by left|].
  destruct (arc_valid _ _ Harc) as (Hi & Hj & _).
  cbn [ac3_loop]. rewrite (bind_ok _ _ _ _ _ (revise_ok xi xj s Hwf Hi Hj)).
  rewrite bool_decide_eq_false_2 by done.
  rewrite revise_store_stable by done.
  apply IH; [simpl in Hfuel; lia|]. intros a Ha. apply Hq. by right.
Qed.

(** With no cell given nothing is propagated and [ac3] reports an unsolved
    grid. *)
Lemma ac3_blank :
  ac3_exit_of (initial_store blank) = Ok (ExitNotSolved, initial_store blank).
Proof.
  set (st := initial_store blank).
  assert (wf_store st) as Hwf by by_evaluation.
  pose proof blank_domains as Hnine. rewrite Forall_forall in Hnine. fold st in Hnine.
  assert (ac3_loop (ac3_bound st) get_all_arcs st = Ok (true, st)) as Hloop.
  { apply ac3_loop_stable; [done|unfold ac3_bound; lia|].
    intros [xi xj] Harc. split; [done|].
    destruct (arc_valid _ _ Harc) as (_ & Hj & _).
    unfold stable, revisable. simpl.
    rewrite (Hnine xj) by (by apply elem_of_all_cells). lia. }
  unfold ac3_exit_of, ac3_run. rewrite (bind_ok _ _ _ _ _ Hloop).
  rewrite (bind_ok _ _ _ _ _
    (all_singletons_ok all_cells st Hwf Forall_valid_all_cells)).
  rewrite bool_decide_eq_false_2; [done|]. intros Hall.
  rewrite Forall_forall in Hall.
  assert ((0, 0) ∈ all_cells) as Hc by (apply elem_of_all_cells; by_evaluation).
  specialize (Hall _ Hc). rewrite (Hnine _ Hc) in Hall. lia.
Qed.

(** The two ways out of [ac3] that return false are both taken. *)
Lemma two_exits_one_value : ¬ distinguishes_exits.
Proof.
  intros Hdist. destruct ac3_all_ones as (xi & _ & H1).
  pose proof (Hdist _ _ _ _ _ _ H1 ac3_blank eq_refl) as Heq. discriminate Heq.
Qed.

End any_runtime.

(** ** Fuel is immaterial *)

Section fuel.
Context `{!SetOrder, !NeighborIndex}.






End fuel.

(** * The claims of the specification *)

Section claims.
Context `{!SetOrder, !NeighborIndex}.

(** C2 — Revise simplification.  For every ordered pair of cells,
    [revise(xi, xj)] removes a value [v] from the domain of [xi] exactly
    when the domain of [xj] is the singleton [{v}], adds nothing, returns
    true iff the domain of [xi] changed, and returns false and leaves the
    store as it was whenever [xj] has two candidates or more, whatever the
    overlap of the two domains. *)
Theorem revise_simplification (xi xj : Cell) (s : Store) :
  wf_store s → valid_cell xi → valid_cell xj →
  ∃ b s', revise xi xj s = Ok (b, s') ∧
    (∀ v, v ∈ dom s xi → (v ∉ dom s' xi ↔ dom s xj = {[v]})) ∧
    (∀ v, v ∈ dom s' xi → v ∈ dom s xi) ∧
    (b = true ↔ dom s' xi ≠ dom s xi) ∧
    (2 ≤ size (dom s xj) → b = false ∧ s' = s).
Proof.
  intros Hwf Hi Hj. eexists _, _. split; [by apply revise_ok|].
  rewrite dom_revise_store by done. unfold revise_store.
  destruct (decide (size (dom s xj) = 1)) as [Hsize|Hsize].
  - rewrite decide_True by done.
    apply size_1_singleton in Hsize as Hw. destruct Hw as [w Hw]. rewrite Hw.
    split; [|split; [|split]].
    + intros v Hv. rewrite elem_of_difference, elem_of_singleton. split.
      * intros Hnot. destruct (decide (v = w)) as [->|]; [done|tauto].
      * intros Heq Hin. assert (v ∈ ({[w]} : Domain)) as Hvw.
        { rewrite Heq. by apply elem_of_singleton. }
        apply elem_of_singleton in Hvw. tauto.
    + intros v Hv. by apply elem_of_difference in Hv as [? _].
    + rewrite bool_decide_eq_true. unfold revisable. rewrite Hw. split.
      * intros [_ Hmeet] Heq. apply Hmeet. apply set_eq. intros v.
        rewrite elem_of_intersection, elem_of_singleton. split; [|by intros ?%not_elem_of_empty].
        intros [Hv ->]. rewrite <-Heq in Hv.
        by apply not_elem_of_difference_singleton in Hv.
      * intros Hne. split; [apply size_singleton|]. intros Hmeet. apply Hne.
        apply set_eq. intros v. rewrite elem_of_difference, elem_of_singleton.
        split; [tauto|]. intros Hv. split; [done|]. intros ->.
        assert (w ∈ dom s xi ∩ {[w]}) as Hin.
        { apply elem_of_intersection. split; [done|by apply elem_of_singleton]. }
        rewrite Hmeet in Hin. by apply not_elem_of_empty in Hin.
    + intros Hsize2. rewrite size_singleton in Hsize2. lia.
  - rewrite decide_False by tauto. split; [|split; [|split]].
    + intros v Hv. split; [done|]. intros Heq. rewrite Heq, size_singleton in Hsize.
      done.
    + done.
    + rewrite bool_decide_eq_true. unfold revisable. split; [tauto|done].
    + intros _. split; [|done]. apply bool_decide_eq_false. unfold revisable. tauto.
Qed.

(** C9 — Monotonic shrink.  One call of [revise] adds no value to any
    domain and changes no domain other than that of [xi]; over a whole run
    of [ac3] the final domain of every cell is a subset of its initial
    domain, so no domain grows in size. *)
Theorem monotonic_shrink (s : Store) :
  wf_store s →
  (∀ xi xj, valid_cell xi → valid_cell xj →
    ∃ b s', revise xi xj s = Ok (b, s') ∧ shrinks s s' ∧
      ∀ c, c ≠ xi → dom s' c = dom s c) ∧
  (∃ b s', ac3 s = Ok (b, s') ∧ shrinks s s' ∧
    ∀ c, size (dom s' c) ≤ size (dom s c)).
Proof.
  intros Hwf. split.
  - intros xi xj Hi Hj. eexists _, _. split; [by apply revise_ok|].
    split; [by apply revise_store_shrinks|].
    intros c Hc. rewrite dom_revise_store by done. by rewrite decide_False by tauto.
  - destruct (ac3_exit_of_spec s Hwf) as (e & s' & Hrun & _ & Hsh & _).
    exists (ac3_result e), s'. split; [|split; [done|]].
    + unfold ac3. by rewrite (bind_ok _ _ _ _ _ Hrun).
    + intros c. apply subseteq_size, Hsh.
Qed.

(** C5 — Forward-check/restore round trip.  For every store, cell and
    value, [restore_domains] applied to the record returned by
    [forward_check] gives back the store as it was before the call, with
    [ok = true] as with [ok = false]; when [ok = false] the scan stopped at
    the first neighbor whose domain became empty and the record holds
    exactly the removals made up to it. *)
Theorem forward_check_restore_roundtrip (c : Cell) (v : Z) (s : Store) :
  wf_store s → valid_cell c →
  ∃ ok removed s1,
    forward_check c v s = Ok ((ok, removed), s1) ∧
    restore_domains removed s1 = Ok ((), s) ∧
    (∀ n, dom s1 n = if decide ((n, v) ∈ removed) then dom s n ∖ {[v]} else dom s n) ∧
    (ok = true →
      ∀ p, p ∈ removed ↔ p.2 = v ∧ p.1 ∈ neighbors c ∧ v ∈ dom s p.1) ∧
    (ok = false →
      ∃ pre n post, neighbors c = pre ++ n :: post ∧
        dom s n = {[v]} ∧ dom s1 n = ∅ ∧ (∀ m, m ∈ pre → dom s m ≠ {[v]}) ∧
        ∀ p, p ∈ removed ↔ p.2 = v ∧ p.1 ∈ pre ++ [n] ∧ v ∈ dom s p.1).
Proof.
  intros Hwf Hc.
  destruct (forward_check_spec c v s Hwf Hc)
    as (ok & removed & s1 & Hrun & Hwf1 & _ & Hdom & scanned & Hrem & Hok).
  exists ok, removed, s1. split; [done|].
  split; [by eapply forward_check_restore|]. split; [done|].
  destruct ok.
  - destruct Hok as [-> _]. split; [done|]. by intros [=].
  - split; [by intros [=]|]. intros _.
    destruct Hok as (pre & n & post & Hsplit & -> & Hn & Hpre).
    exists pre, n, post. do 2 (split; [done|]). split; [|done].
    rewrite Hdom, decide_True.
    + rewrite Hn. apply singleton_difference_empty.
    + apply (Hrem (n, v)). simpl. split; [done|]. split.
      * apply elem_of_app. right. by left.
      * rewrite Hn. by apply elem_of_singleton.
Qed.

(** C6 — MRV selection.  [find_empty_cell] returns none exactly when no
    cell has more than one candidate; otherwise it returns, among the cells
    with more than one candidate, the first one in row-major order that has
    the fewest.  In particular a cell with two candidates is returned when
    every other cell has one candidate or at least three. *)
Theorem mrv_selection (s : Store) :
  wf_store s →
  ∃ r, find_empty_cell s = Ok (r, s) ∧
    (r = None ↔ ∀ c, valid_cell c → size (dom s c) ≤ 1) ∧
    (∀ c, r = Some c →
      valid_cell c ∧ 1 < size (dom s c) ∧
      ∀ c', valid_cell c' → 1 < size (dom s c') →
        size (dom s c) < size (dom s c') ∨
        (size (dom s c) = size (dom s c') ∧ (c = c' ∨ row_major_lt c c'))) ∧
    (∀ a, valid_cell a → size (dom s a) = 2 →
      (∀ c, valid_cell c → c ≠ a → 3 ≤ size (dom s c) ∨ size (dom s c) = 1) →
      r = Some a).
Proof.
  intros Hwf. destruct (find_empty_cell_spec s Hwf) as (r & Hrun & Hr).
  exists r. split; [done|].
  assert (∀ c, r = Some c →
    valid_cell c ∧ 1 < size (dom s c) ∧
    ∀ c', valid_cell c' → 1 < size (dom s c') →
      size (dom s c) < size (dom s c') ∨
      (size (dom s c) = size (dom s c') ∧ (c = c' ∨ row_major_lt c c'))) as Hsome.
  { intros c ->. destruct Hr as (pre & post & Hsplit & Hun & Hpre & Hpost).
    split; [|split; [done|]].
    { apply elem_of_all_cells. rewrite Hsplit. apply elem_of_app. right. by left. }
    intros c' Hc' Hun'. apply elem_of_all_cells in Hc'. rewrite Hsplit in Hc'.
    apply elem_of_app in Hc' as [Hin|[->|Hin]%elem_of_cons].
    - left. by apply Hpre.
    - right. split; [done|by left].
    - specialize (Hpost c' Hin Hun').
      destruct (decide (size (dom s c) = size (dom s c'))); [|left; lia].
      right. split; [done|]. right.
      pose proof all_cells_sorted as Hsorted. rewrite Hsplit in Hsorted.
      apply StronglySorted_app_1_r, StronglySorted_inv in Hsorted as [_ Hall].
      rewrite Forall_forall in Hall. by apply Hall. }
  split; [|split; [done|]].
  - split.
    + intros ->. intros c Hc. specialize (Hr c Hc). unfold unassigned in Hr. lia.
    + intros Hall. destruct r as [c|]; [|done].
      destruct (Hsome c eq_refl) as (Hc & Hun & _). specialize (Hall c Hc). lia.
  - intros a Ha Ha2 Hothers. destruct r as [c|].
    + destruct (Hsome c eq_refl) as (Hc & Hun & Hmin).
      destruct (decide (c = a)) as [->|Hne]; [done|].
      destruct (Hmin a Ha) as [Hlt|[Heq _]]; [lia|..];
        destruct (Hothers c Hc Hne); lia.
    + specialize (Hr a Ha). unfold unassigned in Hr. lia.
Qed.

(** C7 — LCV ordering.  [order_domain_values] returns exactly the
    candidates of the cell, in ascending order of the score computed by
    [count_constraints]: the number of neighbors that have more than one
    candidate, the value among them.  For candidates {3, 7} with 3 in four
    such neighbor domains and 7 in one, the result is [7, 3]. *)
Theorem lcv_ordering (c : Cell) (s : Store) :
  wf_store s → valid_cell c →
  ∃ vals, order_domain_values c s = Ok (vals, s) ∧
    vals ≡ₚ elements (dom s c) ∧
    (∀ v, count_constraints c v s = Ok (constraint_score s (neighbors c) v, s)) ∧
    StronglySorted (λ a b, constraint_score s (neighbors c) a
                           ≤ constraint_score s (neighbors c) b) vals ∧
    (dom s c = {[3; 7]}%Z →
     constraint_score s (neighbors c) 3 = 4 →
     constraint_score s (neighbors c) 7 = 1 →
     vals = [7; 3]%Z).
Proof.
  intros Hwf Hc. exists (lcv_order s c).
  split; [by apply order_domain_values_ok|].
  split; [apply lcv_order_perm|].
  split; [intros v; by apply count_constraints_ok|].
  assert (StronglySorted (λ a b, constraint_score s (neighbors c) a
    ≤ constraint_score s (neighbors c) b) (lcv_order s c)) as Hsorted.
  { apply sort_with_key_sorted. }
  split; [done|]. intros Hdom H3 H7.
  pose proof (lcv_order_perm s c) as Hperm. rewrite Hdom in Hperm.
  assert (elements ({[3%Z; 7%Z]} : Domain) ≡ₚ [3; 7]%Z) as Helems.
  { rewrite elements_union_singleton, elements_singleton; [done|].
    by intros [=]%elem_of_singleton. }
  rewrite Helems in Hperm.
  destruct (lcv_order s c) as [|a [|b [|? ?]]];
    try (apply Permutation_length in Hperm; simpl in Hperm; lia).
  apply Permutation_length_2 in Hperm as [[-> ->]|[-> ->]]; [|done].
  apply StronglySorted_inv in Hsorted as [_ Hle].
  apply Forall_cons in Hle as [Hle _]. lia.
Qed.

(** C10 — Non-emptiness preservation by search.  From a store whose 81
    domains are non-empty, [backtrack] returns, with success or with
    failure, a store whose 81 domains are non-empty. *)
Theorem search_keeps_domains_nonempty (s : Store) :
  wf_store s → (∀ c, valid_cell c → dom s c ≠ ∅) →
  ∃ b s', backtrack s = Ok (b, s') ∧ ∀ c, valid_cell c → dom s' c ≠ ∅.
Proof.
  intros Hwf Hne.
  destruct (backtrack_spec s Hwf) as (b & s' & Hrun & (_ & _ & _ & Hkeep) & _).
  exists b, s'. split; [done|]. intros c Hc. by apply Hkeep, Hne.
Qed.

(** C3 — Cell-domain reset on failed exploration.  The reset
    [csp.domains[row][col] = set(order_domain_values(csp, row, col))] writes
    back the domain the cell has at that moment, whatever it is.  So when
    [backtrack] fails after trying at least one value of the cell it
    selected, that cell is left with a single value: its other candidates
    are gone from its domain. *)
Theorem cell_domain_reset (s : Store) :
  wf_store s →
  (∀ c, valid_cell c →
    ∃ vals, order_domain_values c s = Ok (vals, s) ∧
      list_to_set vals = dom s c ∧
      set_domain c (list_to_set vals) s = Ok ((), s)) ∧
  (∀ c v, valid_cell c → dom s c = {[v]} →
    order_domain_values c s = Ok ([v], s)) ∧
  ∃ b s', backtrack s = Ok (b, s') ∧
    ∀ c, find_empty_cell s = Ok (Some c, s) → b = false →
      (∃ v, v ∈ dom s c ∧ conflict_free s (neighbors c) v) →
      ∃ w, w ∈ dom s c ∧ dom s' c = {[w]} ∧ dom s' c ≠ dom s c ∧
        ∀ u, u ∈ dom s c → u ≠ w → u ∉ dom s' c.
Proof.
  intros Hwf. split; [|split].
  - intros c Hc. exists (lcv_order s c).
    split; [by apply order_domain_values_ok|].
    split; [apply list_to_set_lcv_order|].
    rewrite set_domain_ok by done.
    by rewrite list_to_set_lcv_order, upd_same.
  - intros c v Hc Hdom. rewrite order_domain_values_ok by done.
    do 2 f_equal. apply Permutation_singleton_r.
    by rewrite lcv_order_perm, Hdom, elements_singleton.
  - destruct (backtrack_spec s Hwf) as (b & s' & Hrun & _).
    exists b, s'. split; [done|]. intros c Hfind -> (v & Hv & Hfree).
    destruct (backtrack_fuel_failure 81 s s' c v) as (w & Hw & Hdom); try done.
    { pose proof (unassigned_count_bound s). lia. }
    exists w. split; [done|]. split; [done|]. split.
    + destruct (find_empty_cell_spec s Hwf) as (r & Hfind' & Hr).
      rewrite Hfind in Hfind'. injection Hfind' as <-.
      destruct Hr as (_ & _ & _ & Hun & _). unfold unassigned in Hun.
      intros Heq. rewrite <-Heq, Hdom, size_singleton in Hun. lia.
    + intros u _ Hu. rewrite Hdom. by intros ?%elem_of_singleton.
Qed.


End claims.

(** ** The claims on concrete stores *)



(** C1 — Soundness of a reported solution does not hold for [backtrack]
    ([ac3_sound] is the part that holds).  With every cell given as 1,
    [backtrack] returns success on the grid of ones, and [main] reports a
    solution on the store with an empty domain that [ac3] leaves, whatever
    the iteration orders.  On a puzzle of 17 givens with no conflict among
    them, [backtrack] and [main] (with ascending iteration and row-major
    neighbors) report a solution in which every cell is assigned but rows,
    columns and boxes hold repeated digits. *)
Theorem backtrack_reports_invalid_grid :
  (∀ (order : SetOrder) (index : NeighborIndex),
     backtrack (initial_store all_ones) = Ok (true, initial_store all_ones) ∧
     ∃ s' c, main (initial_store all_ones) = Ok (SolvedByBacktracking, s') ∧
       valid_cell c ∧ dom s' c = ∅) ∧
  ¬ valid_grid (initial_store all_ones) ∧
  (∃ s', backtrack (initial_store seventeen) = Ok (true, s') ∧
     all_assigned s' ∧ ¬ valid_grid s') ∧
  (∃ s', main (initial_store seventeen) = Ok (SolvedByBacktracking, s') ∧
     all_assigned s' ∧ ¬ valid_grid s' ∧
     (λ c, digit (dom s' c)) <$> row_cells 2 = [5; 4; 2; 6; 1; 9; 9; 7; 8]%Z).
Proof.
  split; [|split; [|split]].
  - intros order index. split; [apply backtrack_all_ones|apply main_all_ones].
  - by_evaluation.
  - exists (store_of (backtrack (initial_store seventeen))).
    split; [by_run|]. split.
    + intros c Hc%elem_of_all_cells. revert c Hc. apply Forall_forall.
      by_evaluation_at (store_of (backtrack (initial_store seventeen))).
    + by_evaluation_at (store_of (backtrack (initial_store seventeen))).
  - exists (store_of (main (initial_store seventeen))).
    split; [by_run|]. split; [|split].
    + intros c Hc%elem_of_all_cells. revert c Hc. apply Forall_forall.
      by_evaluation_at (store_of (main (initial_store seventeen))).
    + by_evaluation_at (store_of (main (initial_store seventeen))).
    + pattern (store_of (main (initial_store seventeen))). vm_compute. reflexivity.
Qed.

(** C4 — The tri-state contract fails: a revision that empties a domain
    (every cell given as 1) and a queue that empties on an unsolved grid
    (no cell given) both make [ac3] return false ([two_exits_one_value]
    shows it for every iteration order). *)
Lemma ac3_returns_two_values : ¬ distinguishes_exits.
Proof. apply two_exits_one_value. Qed.

(** C8 — On an unsolvable input the overall result is not failure.  With
    every cell given as 1 no valid grid can be reached, and [main] returns
    (as it does on every store) but reports a solution, whatever the
    iteration orders: [backtrack] is run on the store with an emptied
    domain that [ac3] leaves and returns true on it. *)
Lemma unsolvable_reported_solved :
  ¬ solvable (initial_store all_ones) ∧
  ∀ (order : SetOrder) (index : NeighborIndex),
    ∃ s', main (initial_store all_ones) = Ok (SolvedByBacktracking, s').
Proof.
  split; [apply all_ones_unsolvable|]. intros order index.
  destruct main_all_ones as (s' & _ & Hmain & _). by exists s'.
Qed.

Lemma revise_simplification_witness :
  wf_store (initial_store all_ones) ∧ valid_cell (0, 0) ∧ valid_cell (0, 1) ∧
  ∃ b s', revise (0, 0) (0, 1) (initial_store all_ones) = Ok (b, s') ∧
    (b = true ↔ dom s' (0, 0) ≠ dom (initial_store all_ones) (0, 0)).
Proof.
  split; [by_evaluation|]. split; [by_evaluation|]. split; [by_evaluation|].
  destruct (revise_simplification (0, 0) (0, 1) (initial_store all_ones))
    as (b & s' & Hrun & _ & _ & Hb & _); [by_evaluation..|].
  exists b, s'. exact (conj Hrun Hb).
Defined.

Lemma monotonic_shrink_witness :
  wf_store (initial_store seventeen) ∧
  ∃ b s', ac3 (initial_store seventeen) = Ok (b, s') ∧
    shrinks (initial_store seventeen) s'.
Proof.
  split; [by_evaluation|].
  destruct (monotonic_shrink (initial_store seventeen))
    as (_ & b & s' & Hrun & Hsh & _); [by_evaluation|].
  exists b, s'. exact (conj Hrun Hsh).
Defined.

Lemma forward_check_restore_roundtrip_witness :
  wf_store (initial_store all_ones) ∧ valid_cell (0, 0) ∧
  ∃ ok removed s1,
    forward_check (0, 0) 1 (initial_store all_ones) = Ok ((ok, removed), s1) ∧
    restore_domains removed s1 = Ok ((), initial_store all_ones).
Proof.
  split; [by_evaluation|]. split; [by_evaluation|].
  destruct (forward_check_restore_roundtrip (0, 0) 1 (initial_store all_ones))
    as (ok & removed & s1 & Hrun & Hback & _); [by_evaluation..|].
  exists ok, removed, s1. exact (conj Hrun Hback).
Defined.

Lemma mrv_selection_witness :
  wf_store mrv_example ∧
  find_empty_cell mrv_example = Ok (Some (4, 4), mrv_example).
Proof.
  split; [by_evaluation|].
  destruct (mrv_selection mrv_example) as (r & Hrun & _ & _ & Htwo);
    [by_evaluation|].
  assert (r = Some (4, 4)) as Hr; [|rewrite Hr in Hrun; exact Hrun].
  apply Htwo; [by_evaluation|vm_compute; reflexivity|].
  intros c Hc%elem_of_all_cells. revert c Hc.
  apply (proj1 (Forall_forall (λ c, c ≠ (4, 4) →
    3 ≤ size (dom mrv_example c) ∨ size (dom mrv_example c) = 1) all_cells)).
  by_evaluation.
Defined.

Lemma lcv_ordering_witness :
  wf_store lcv_example ∧ valid_cell (0, 0) ∧
  order_domain_values (0, 0) lcv_example = Ok ([7; 3]%Z, lcv_example).
Proof.
  split; [by_evaluation|]. split; [by_evaluation|].
  destruct (lcv_ordering (0, 0) lcv_example)
    as (vals & Hrun & _ & _ & _ & Hexample); [by_evaluation..|].
  assert (vals = [7; 3]%Z) as Hvals; [|rewrite Hvals in Hrun; exact Hrun].
  apply Hexample; vm_compute; reflexivity.
Defined.

Lemma search_keeps_domains_nonempty_witness :
  wf_store (initial_store seventeen) ∧
  (∀ c, valid_cell c → dom (initial_store seventeen) c ≠ ∅) ∧
  ∃ b s', backtrack (initial_store seventeen) = Ok (b, s') ∧
    ∀ c, valid_cell c → dom s' c ≠ ∅.
Proof.
  assert (∀ c, valid_cell c → dom (initial_store seventeen) c ≠ ∅) as Hne.
  { intros c Hc%elem_of_all_cells. revert c Hc. apply Forall_forall.
    by_evaluation_at (initial_store seventeen). }
  split; [by_evaluation|]. split; [exact Hne|].
  apply search_keeps_domains_nonempty; [by_evaluation|exact Hne].
Defined.

Lemma cell_domain_reset_witness :
  wf_store dead_end ∧
  find_empty_cell dead_end = Ok (Some (0, 0), dead_end) ∧
  dom dead_end (0, 0) = {[3; 5]}%Z ∧
  conflict_free dead_end (neighbors (0, 0)) 5 ∧
  ∃ s' w, backtrack dead_end = Ok (false, s') ∧
    dom s' (0, 0) = {[w]} ∧ dom s' (0, 0) ≠ dom dead_end (0, 0).
Proof.
  assert (wf_store dead_end) as Hwf by by_evaluation.
  assert (find_empty_cell dead_end = Ok (Some (0, 0), dead_end)) as Hfind
    by (vm_compute; reflexivity).
  assert (conflict_free dead_end (neighbors (0, 0)) 5) as Hfree by by_evaluation.
  assert (5%Z ∈ dom dead_end (0, 0)) as Hfive by by_evaluation.
  split; [exact Hwf|]. split; [exact Hfind|].
  split; [vm_compute; reflexivity|]. split; [exact Hfree|].
  destruct (cell_domain_reset dead_end Hwf) as (_ & _ & b & s' & Hrun & Hfail).
  assert (value_of (backtrack dead_end) = Some false) as Hval
    by (vm_compute; reflexivity).
  rewrite Hrun in Hval. injection Hval as ->.
  destruct (Hfail (0, 0) Hfind eq_refl (ex_intro _ 5%Z (conj Hfive Hfree)))
    as (w & _ & Hdom & Hlost & _).
  exists s', w. exact (conj Hrun (conj Hdom Hlost)).
Defined.


(** * Further properties of the code *)

(** ** Valid grids *)

Lemma cells_in_units : Forall (λ c, Exists (λ u, c ∈ u) units) all_cells.
Proof. by_evaluation. Qed.

Lemma peers_share_unit :
  Forall (λ c, Forall (λ c', peer c c' → Exists (λ u, c ∈ u ∧ c' ∈ u) units)
    all_cells) all_cells.
Proof. by_evaluation. Qed.

Lemma digit_nonzero (d : Domain) : digit d ≠ 0%Z → d = {[digit d]}.
Proof.
  unfold digit. destruct (elements d) as [|v [|w l]] eqn:Hd; [done| |done].
  intros _. apply set_eq. intros x.
  rewrite <-elem_of_elements, Hd, list_elem_of_singleton, elem_of_singleton. done.
Qed.

Lemma NoDup_fmap_inj_on {A B} (f : A → B) (l : list A) (x y : A) :
  NoDup (f <$> l) → x ∈ l → y ∈ l → f x = f y → x = y.
Proof.
  induction l as [|z l IH]; [by intros _ ?%elem_of_nil|].
  rewrite fmap_cons. intros [Hz Hnd]%NoDup_cons Hx Hy Heq.
  apply elem_of_cons in Hx as [->|Hx]; apply elem_of_cons in Hy as [->|Hy].
  - done.
  - exfalso. apply Hz. rewrite Heq. by apply list_elem_of_fmap_2.
  - exfalso. apply Hz. rewrite <-Heq. by apply list_elem_of_fmap_2.
  - by apply IH.
Qed.

Lemma NoDup_digits_1_9 : NoDup digits_1_9.
Proof. by_evaluation. Qed.

(** In a valid grid every cell holds one digit 1-9. *)
Lemma valid_grid_cell (s : Store) (c : Cell) :
  valid_grid s → valid_cell c → ∃ v, dom s c = {[v]} ∧ (1 ≤ v ≤ 9)%Z.
Proof.
  intros Hgrid Hc. unfold valid_grid in Hgrid. rewrite Forall_forall in Hgrid.
  pose proof cells_in_units as Hunits. rewrite Forall_forall in Hunits.
  apply elem_of_all_cells in Hc.
  specialize (Hunits c Hc). apply Exists_exists in Hunits as (u & Hu & Hcu).
  specialize (Hgrid u Hu).
  assert (digit (dom s c) ∈ digits_1_9) as Hin.
  { rewrite <-Hgrid. by apply (list_elem_of_fmap_2 (λ c, digit (dom s c))). }
  assert (1 ≤ digit (dom s c) ≤ 9)%Z as Hrange.
  { unfold digits_1_9 in Hin.
    repeat (apply elem_of_cons in Hin as [->|Hin]; [lia|]).
    by apply elem_of_nil in Hin. }
  exists (digit (dom s c)). split; [|done]. apply digit_nonzero. lia.
Qed.

(** In a valid grid two peers hold different digits. *)
Lemma valid_grid_peers (s : Store) (c c' : Cell) (v : Z) :
  valid_grid s → valid_cell c → valid_cell c' → peer c c' →
  dom s c = {[v]} → dom s c' ≠ {[v]}.
Proof.
  intros Hgrid Hc Hc' Hpeer Hv Hv'.
  pose proof peers_share_unit as Hshare. rewrite Forall_forall in Hshare.
  apply elem_of_all_cells in Hc, Hc'.
  specialize (Hshare c Hc). rewrite Forall_forall in Hshare.
  specialize (Hshare c' Hc' Hpeer).
  apply Exists_exists in Hshare as (u & Hu & Hcu & Hcu').
  unfold valid_grid in Hgrid. rewrite Forall_forall in Hgrid.
  specialize (Hgrid u Hu).
  assert (NoDup ((λ c, digit (dom s c)) <$> u)) as Hnd.
  { rewrite Hgrid. apply NoDup_digits_1_9. }
  destruct Hpeer as [Hne _]. apply Hne.
  apply (NoDup_fmap_inj_on _ _ _ _ Hnd Hcu Hcu'). simpl. by rewrite Hv, Hv'.
Qed.

Lemma valid_grid_ext (s s' : Store) :
  (∀ c, valid_cell c → dom s c = dom s' c) → valid_grid s → valid_grid s'.
Proof.
  intros Heq Hgrid. unfold valid_grid in *. rewrite Forall_forall in Hgrid.
  pose proof units_are_peers as Hunits. rewrite Forall_forall in Hunits.
  apply Forall_forall. intros u Hu. rewrite <-(Hgrid u Hu).
  destruct (Hunits u Hu) as (_ & _ & Hvalid). rewrite Forall_forall in Hvalid.
  assert ((λ c, digit (dom s' c)) <$> u = (λ c, digit (dom s c)) <$> u) as ->;
    [|done].
  apply list_fmap_ext. intros i c Hc. simpl.
  rewrite Heq; [done|]. apply (Hvalid c). by eapply list_elem_of_lookup_2.
Qed.

(** ** More on [revise] and [ac3] *)

Section more_ac3.
Context `{!SetOrder, !NeighborIndex}.

Lemma arc_peer (xi xj : Cell) : (xi, xj) ∈ get_all_arcs → peer xi xj.
Proof.
  intros [Hi Hin]%get_all_arcs_spec. by apply neighbors_spec in Hin as [_ ?].
Qed.

Lemma enqueue_neighbors_arcs (xi xj : Cell) (q : list Arc) (a : Arc) :
  valid_cell xi → (∀ b, b ∈ q → b ∈ get_all_arcs) →
  a ∈ enqueue_neighbors xi xj (neighbors xi) q → a ∈ get_all_arcs.
Proof.
  intros Hi Hq. rewrite enqueue_neighbors_eq. intros [Ha|Ha]%elem_of_app.
  { by apply Hq. }
  apply list_elem_of_fmap in Ha as (xk & -> & Hk).
  apply list_elem_of_filter in Hk as [_ Hk].
  apply get_all_arcs_spec. split; [by apply (neighbors_valid xi)|].
  by apply neighbors_sym.
Qed.

(** A property of the store kept by every revision is kept by the worklist
    loop. *)
Lemma ac3_loop_invariant (I : Store → Prop) :
  (∀ s xi xj, wf_store s → (xi, xj) ∈ get_all_arcs → I s →
    I (revise_store s xi xj)) →
  ∀ fuel queue s r s',
    wf_store s → (∀ a, a ∈ queue → a ∈ get_all_arcs) → I s →
    ac3_loop fuel queue s = Ok (r, s') → I s'.
Proof.
  intros Hstep fuel.
  induction fuel as [|fuel IH]; intros queue s r s' Hwf Hq HI Hrun.
  { destruct queue as [|[xi xj] q]; [|done]. by injection Hrun as _ <-. }
  destruct queue as [|[xi xj] q]; [by injection Hrun as _ <-|].
  assert ((xi, xj) ∈ get_all_arcs) as Harc by (apply Hq; left).
  destruct (arc_valid _ _ Harc) as (Hi & Hj & _).
  pose proof (revise_store_wf s xi xj Hwf) as Hwf1.
  pose proof (Hstep s xi xj Hwf Harc HI) as HI1.
  cbn [ac3_loop] in Hrun.
  rewrite (bind_ok _ _ _ _ _ (revise_ok xi xj s Hwf Hi Hj)) in Hrun.
  destruct (bool_decide (revisable s xi xj)).
  - rewrite (bind_ok _ _ _ _ _ (get_domain_ok _ xi Hwf1 Hi)) in Hrun.
    case_decide; [by injection Hrun as _ <-|].
    rewrite (bind_ok _ _ _ _ _ (get_neighbors_ok xi _ Hi)) in Hrun.
    apply (IH _ _ _ _ Hwf1) in Hrun; [done| |done].
    intros a Ha. apply (enqueue_neighbors_arcs xi xj q); [done| |done].
    intros b Hb. apply Hq. by right.
  - apply (IH _ _ _ _ Hwf1) in Hrun; [done| |done].
    intros a Ha. apply Hq. by right.
Qed.

(** Every arc of a valid grid is stable. *)
Lemma valid_grid_stable (s : Store) (a : Arc) :
  valid_grid s → a ∈ get_all_arcs → stable s a.
Proof.
  intros Hgrid Ha. destruct a as [xi xj].
  destruct (arc_valid _ _ Ha) as (Hi & Hj & _). pose proof (arc_peer _ _ Ha) as Hpeer.
  destruct (valid_grid_cell s xi Hgrid Hi) as (v & Hv & _).
  destruct (valid_grid_cell s xj Hgrid Hj) as (w & Hw & _).
  pose proof (valid_grid_peers s xi xj v Hgrid Hi Hj Hpeer Hv) as Hne.
  unfold stable, revisable. simpl. rewrite Hv, Hw. intros [_ Hmeet]. apply Hmeet.
  apply set_eq. intros x. rewrite elem_of_intersection, !elem_of_singleton.
  split; [|by intros ?%not_elem_of_empty]. intros [-> ->]. by rewrite Hw in Hne.
Qed.

(** On a store with no revisable arc [ac3] only runs its final test. *)
Lemma ac3_exit_of_stable (s : Store) :
  wf_store s → (∀ a, a ∈ get_all_arcs → stable s a) →
  ac3_exit_of s =
    Ok (if bool_decide (Forall (λ c, size (dom s c) = 1) all_cells)
        then ExitSolved else ExitNotSolved, s).
Proof.
  intros Hwf Hstable.
  assert (ac3_loop (ac3_bound s) get_all_arcs s = Ok (true, s)) as Hloop.
  { apply ac3_loop_stable; [done|unfold ac3_bound; lia|]. intros a Ha. auto. }
  unfold ac3_exit_of, ac3_run. rewrite (bind_ok _ _ _ _ _ Hloop).
  rewrite (bind_ok _ _ _ _ _
    (all_singletons_ok all_cells s Hwf Forall_valid_all_cells)).
  by destruct (bool_decide _).
Qed.

(** A solution that the store allows is still allowed after a revision. *)
Lemma revise_keeps_solution (s t : Store) (xi xj : Cell) :
  wf_store s → (xi, xj) ∈ get_all_arcs → valid_grid t →
  shrinks s t → shrinks (revise_store s xi xj) t.
Proof.
  intros Hwf Harc Hgrid Hsh c.
  destruct (arc_valid _ _ Harc) as (Hi & Hj & _). pose proof (arc_peer _ _ Harc) as Hpeer.
  rewrite dom_revise_store by done. case_decide as Hc; [|apply Hsh].
  destruct Hc as [-> Hsize]. apply size_1_singleton in Hsize as [w Hw].
  destruct (valid_grid_cell t xi Hgrid Hi) as (u & Hu & _).
  destruct (valid_grid_cell t xj Hgrid Hj) as (u' & Hu' & _).
  pose proof (valid_grid_peers t xi xj u Hgrid Hi Hj Hpeer Hu) as Hne.
  assert (u' = w) as ->.
  { pose proof (Hsh xj u') as Hin. rewrite Hu', Hw in Hin.
    assert (u' ∈ ({[w]} : Domain)) as Hin' by (apply Hin; by apply elem_of_singleton).
    by apply elem_of_singleton in Hin'. }
  intros x Hx. rewrite Hu in Hx. apply elem_of_singleton in Hx as ->.
  rewrite Hw. apply elem_of_difference. split.
  - apply Hsh. rewrite Hu. by apply elem_of_singleton.
  - intros ->%elem_of_singleton. by rewrite Hu' in Hne.
Qed.

Lemma subseteq_singleton_nonempty (d : Domain) (w : Z) :
  d ⊆ {[w]} → d ≠ ∅ → d = {[w]}.
Proof.
  intros Hsub Hne. apply set_eq. intros x. split; [apply Hsub|].
  intros ->%elem_of_singleton. apply set_choose_L in Hne as [y Hy].
  by pose proof (Hsub y Hy) as ->%elem_of_singleton.
Qed.

Lemma consistent_arcs (s : Store) :
  consistent s ↔ ∀ a, a ∈ get_all_arcs → stable s a.
Proof.
  split.
  - intros Hc [xi xj] Ha. destruct (arc_valid _ _ Ha) as (Hi & Hj & _).
    apply Hc; [done..|by apply arc_peer].
  - intros Hst xi xj Hi Hj Hp. apply Hst, get_all_arcs_spec.
    split; [done|]. by apply neighbors_spec.
Qed.

(** The store [ac3] is left with is the one its worklist loop is left
    with. *)
Lemma ac3_exit_of_loop (s : Store) (e : ac3_exit) (s' : Store) :
  wf_store s → ac3_exit_of s = Ok (e, s') →
  ∃ fin, ac3_loop (ac3_bound s) get_all_arcs s = Ok (fin, s') ∧
    (fin = false ↔ e = ExitEmptyDomain).
Proof.
  intros Hwf Hrun.
  destruct (ac3_loop_spec (ac3_bound s) get_all_arcs s Hwf)
    as (fin & s1 & Hloop & Hwf1 & _); [done..|].
  exists fin. unfold ac3_exit_of, ac3_run in Hrun.
  rewrite (bind_ok _ _ _ _ _ Hloop) in Hrun. destruct fin.
  - rewrite (bind_ok _ _ _ _ _
      (all_singletons_ok all_cells s1 Hwf1 Forall_valid_all_cells)) in Hrun.
    destruct (bool_decide _); injection Hrun as <- <-; by split.
  - by injection Hrun as <- <-.
Qed.

(** When the loop is left by the [return False] of line 28, the store is
    the one the last revision left: it took the last candidate of [xi],
    and no cell had lost its last candidate before. *)
Lemma ac3_loop_emptied (s0 : Store) (fuel : nat) :
  ∀ queue s s',
    wf_store s → (∀ a, a ∈ queue → a ∈ get_all_arcs) →
    shrinks s0 s → (∀ c, dom s0 c ≠ ∅ → dom s c ≠ ∅) →
    ac3_loop fuel queue s = Ok (false, s') →
    ∃ cur xi xj, (xi, xj) ∈ get_all_arcs ∧ wf_store cur ∧ shrinks s0 cur ∧
      (∀ c, dom s0 c ≠ ∅ → dom cur c ≠ ∅) ∧
      revise xi xj cur = Ok (true, s') ∧ dom s' xi = ∅.
Proof.
  induction fuel as [|fuel IH]; intros queue s s' Hwf Hq Hsh Hkeep Hrun.
  { by destruct queue as [|[xi xj] q]. }
  destruct queue as [|[xi xj] q]; [done|].
  assert ((xi, xj) ∈ get_all_arcs) as Harc by (apply Hq; left).
  destruct (arc_valid _ _ Harc) as (Hi & Hj & _).
  pose proof (revise_store_wf s xi xj Hwf) as Hwf1.
  pose proof (revise_ok xi xj s Hwf Hi Hj) as Hrev.
  cbn [ac3_loop] in Hrun. rewrite (bind_ok _ _ _ _ _ Hrev) in Hrun.
  destruct (bool_decide (revisable s xi xj)) eqn:Hb.
  - rewrite (bind_ok _ _ _ _ _ (get_domain_ok _ xi Hwf1 Hi)) in Hrun.
    case_decide as Hempty.
    { injection Hrun as <-. by exists s, xi, xj. }
    rewrite (bind_ok _ _ _ _ _ (get_neighbors_ok xi _ Hi)) in Hrun.
    apply (IH _ _ _ Hwf1) in Hrun; [done| | |].
    + intros a Ha. apply (enqueue_neighbors_arcs xi xj q); [done| |done].
      intros b Hin. apply Hq. by right.
    + apply (shrinks_trans _ s); [done|by apply revise_store_shrinks].
    + intros c Hc. rewrite dom_revise_store by done.
      case_decide as Hxi; [|by apply Hkeep]. destruct Hxi as [-> Hsize].
      rewrite dom_revise_store, decide_True in Hempty by done. done.
  - apply bool_decide_eq_false in Hb.
    rewrite revise_store_stable in Hrun by done.
    apply (IH _ _ _ Hwf) in Hrun; [done| |done..].
    intros a Ha. apply Hq. by right.
Qed.

(** A consistent store below the current one, with a candidate for every
    cell that had one at the start, stays below it through a revision. *)
Lemma revise_above_consistent (s0 t s : Store) (xi xj : Cell) :
  consistent t → (∀ c, dom s0 c ≠ ∅ → dom t c ≠ ∅) →
  wf_store s → (xi, xj) ∈ get_all_arcs →
  shrinks s0 s ∧ shrinks s t →
  shrinks s0 (revise_store s xi xj) ∧ shrinks (revise_store s xi xj) t.
Proof.
  intros Hcons Hkeep Hwf Harc [Hs0 Hst].
  destruct (arc_valid _ _ Harc) as (Hi & Hj & _). pose proof (arc_peer _ _ Harc) as Hpeer.
  split.
  { apply (shrinks_trans _ s); [done|by apply revise_store_shrinks]. }
  intros c. rewrite dom_revise_store by done. case_decide as Hc; [|apply Hst].
  destruct Hc as [-> Hsize]. apply size_1_singleton in Hsize as [w Hw].
  assert (dom t xj = {[w]}) as Htj.
  { apply subseteq_singleton_nonempty.
    - rewrite <-Hw. apply Hst.
    - apply Hkeep. intros Hempty.
      assert (w ∈ dom s0 xj) as Hin.
      { apply Hs0. rewrite Hw. by apply elem_of_singleton. }
      rewrite Hempty in Hin. by apply not_elem_of_empty in Hin. }
  intros x Hx. rewrite Hw. apply elem_of_difference. split; [by apply Hst|].
  intros ->%elem_of_singleton.
  apply (Hcons xi xj Hi Hj Hpeer). unfold revisable. simpl. rewrite Htj.
  split; [apply size_singleton|]. intros Hmeet.
  assert (w ∈ dom t xi ∩ {[w]}) as Hin.
  { apply elem_of_intersection. split; [done|by apply elem_of_singleton]. }
  rewrite Hmeet in Hin. by apply not_elem_of_empty in Hin.
Qed.

Lemma ac3_above_consistent (s t : Store) (e : ac3_exit) (s' : Store) :
  wf_store s → consistent t → shrinks s t →
  (∀ c, dom s c ≠ ∅ → dom t c ≠ ∅) →
  ac3_exit_of s = Ok (e, s') → e ≠ ExitEmptyDomain ∧ shrinks s' t.
Proof.
  intros Hwf Hcons Hsh Hkeep Hrun.
  destruct (ac3_exit_of_loop s e s' Hwf Hrun) as (fin & Hloop & _).
  assert (shrinks s s' ∧ shrinks s' t) as [_ Hbelow].
  { apply (ac3_loop_invariant (λ x, shrinks s x ∧ shrinks x t)
      (λ x xi xj Hx Ha HI, revise_above_consistent s t x xi xj Hcons Hkeep Hx Ha HI)
      _ _ _ _ _ Hwf (λ a Ha, Ha) (conj (shrinks_refl s) Hsh) Hloop). }
  split; [|done]. intros ->.
  destruct (ac3_exit_of_spec s Hwf) as (e1 & s1 & Hrun1 & _ & _ & He).
  rewrite Hrun in Hrun1. injection Hrun1 as <- <-.
  destruct He as (c & _ & Hempty & Hne). apply (Hkeep c Hne).
  apply set_eq. intros x. split; [|by intros ?%not_elem_of_empty].
  intros Hx. rewrite <-Hempty. by apply Hbelow.
Qed.

Lemma ac3_exit_consistent (s : Store) (e : ac3_exit) (s' : Store) :
  wf_store s → ac3_exit_of s = Ok (e, s') → e ≠ ExitEmptyDomain →
  wf_store s' ∧ consistent s' ∧ shrinks s s' ∧
  (∀ c, dom s c ≠ ∅ → dom s' c ≠ ∅) ∧
  (e = ExitSolved ↔ ∀ c, valid_cell c → size (dom s' c) = 1).
Proof.
  intros Hwf Hrun Hexit.
  destruct (ac3_exit_of_spec s Hwf) as (e1 & s1 & Hrun1 & Hwf' & Hsh & He).
  rewrite Hrun in Hrun1. injection Hrun1 as <- <-.
  split; [done|]. destruct e; [done| |].
  - destruct He as [Hst Hall]. split; [by apply consistent_arcs|].
    split; [done|]. split; [|done].
    intros c Hne. destruct (decide (valid_cell c)) as [Hc|Hc].
    + intros Hempty. specialize (Hall c Hc). rewrite Hempty, size_empty in Hall. lia.
    + by rewrite dom_outside in Hne.
  - destruct He as (Hst & Hkeep & c & Hc & Hsize).
    split; [by apply consistent_arcs|]. split; [done|]. split; [done|].
    split; [done|]. intros Hall. by specialize (Hall c Hc).
Qed.

(** X1 — When [ac3] returns true on a store of digits 1-9, the store it
    leaves is a solution of the one it was given: every cell holds one of
    its candidates, and every row, column and box holds each digit once. *)
Theorem ac3_true_is_solution (s : Store) :
  wf_store s → digits_only s →
  ∃ b s', ac3 s = Ok (b, s') ∧
    (b = true → wf_store s' ∧ shrinks s s' ∧ all_assigned s' ∧ valid_grid s').
Proof.
  intros Hwf Hdigits.
  destruct (ac3_sound s Hwf Hdigits) as (b & s' & Hrun & Htrue).
  destruct (ac3_ok s Hwf) as (b' & s'' & Hrun' & Hwf' & Hsh).
  rewrite Hrun in Hrun'. injection Hrun' as <- <-.
  exists b, s'. split; [done|]. intros Hb. destruct (Htrue Hb). done.
Qed.

(** X2 — When [ac3] is left with the queue empty, no cell keeps the value
    of an assigned neighbor, and a second call of [ac3] leaves through the
    same exit without changing the store. *)
Theorem ac3_quiescent (s : Store) :
  wf_store s →
  ∃ e s', ac3_exit_of s = Ok (e, s') ∧
    (e ≠ ExitEmptyDomain →
      (∀ xi xj v, valid_cell xi → xj ∈ neighbors xi →
        dom s' xj = {[v]} → v ∉ dom s' xi) ∧
      ac3_exit_of s' = Ok (e, s')).
Proof.
  intros Hwf. destruct (ac3_exit_of_spec s Hwf) as (e & s' & Hrun & Hwf' & _ & He).
  exists e, s'. split; [done|]. intros Hexit.
  assert (∀ a, a ∈ get_all_arcs → stable s' a) as Hstable.
  { destruct e; [done|by destruct He|by destruct He]. }
  split.
  - intros xi xj v Hi Hj Hv Hin.
    apply (Hstable (xi, xj)); [by apply get_all_arcs_spec|].
    unfold revisable. simpl. rewrite Hv. split; [apply size_singleton|].
    intros Hmeet. assert (v ∈ dom s' xi ∩ {[v]}) as Hx.
    { apply elem_of_intersection. split; [done|by apply elem_of_singleton]. }
    rewrite Hmeet in Hx. by apply not_elem_of_empty in Hx.
  - rewrite ac3_exit_of_stable by done. destruct e; [done| |].
    + destruct He as [_ Hall]. rewrite bool_decide_eq_true_2; [done|].
      apply Forall_forall. intros c Hc. by apply Hall, elem_of_all_cells.
    + destruct He as (_ & _ & c & Hc & Hsize). rewrite bool_decide_eq_false_2; [done|].
      intros Hall. rewrite Forall_forall in Hall. apply Hsize, Hall.
      by apply elem_of_all_cells.
Qed.

(** X3 — Unless a revision empties a domain, [ac3] leaves every assigned
    cell with its value. *)
Theorem ac3_keeps_assigned_cells (s : Store) :
  wf_store s →
  ∃ e s', ac3_exit_of s = Ok (e, s') ∧
    (e ≠ ExitEmptyDomain → ∀ c v, dom s c = {[v]} → dom s' c = {[v]}).
Proof.
  intros Hwf. destruct (ac3_exit_of_spec s Hwf) as (e & s' & Hrun & Hwf' & Hsh & He).
  exists e, s'. split; [done|]. intros Hexit c v Hv.
  assert (dom s' c ≠ ∅) as Hne.
  { destruct e; [done| |].
    - destruct He as [_ Hall]. destruct (decide (valid_cell c)) as [Hc|Hc].
      + intros Hempty. specialize (Hall c Hc). rewrite Hempty, size_empty in Hall. lia.
      + rewrite dom_outside in Hv by done. exfalso.
        assert (v ∈ (∅ : Domain)) as Hin by (rewrite Hv; by apply elem_of_singleton).
        by apply not_elem_of_empty in Hin.
    - destruct He as (_ & Hkeep & _). apply Hkeep. rewrite Hv.
      apply (non_empty_singleton_L (C := Domain)). }
  specialize (Hsh c). rewrite Hv in Hsh. apply set_eq. intros x. split; [apply Hsh|].
  intros ->%elem_of_singleton. destruct (decide (v ∈ dom s' c)) as [|Hnot]; [done|].
  exfalso. apply Hne. apply set_eq. intros x. split; [|by intros ?%not_elem_of_empty].
  intros Hx. pose proof (Hsh x Hx) as ->%elem_of_singleton. done.
Qed.

(** X4 — [ac3] removes no value of a solution: a valid grid that can be
    reached from the store by removing candidates can still be reached from
    the store [ac3] leaves, and [ac3] is then not left through an emptied
    domain. *)
Theorem ac3_keeps_solutions (s t : Store) :
  wf_store s → valid_grid t → shrinks s t →
  ∃ e s', ac3_exit_of s = Ok (e, s') ∧ e ≠ ExitEmptyDomain ∧ shrinks s' t.
Proof.
  intros Hwf Hgrid Hsh.
  destruct (ac3_loop_spec (ac3_bound s) get_all_arcs s Hwf)
    as (fin & s' & Hloop & Hwf' & _ & Hres); [done..|].
  assert (shrinks s' t) as Hsh'.
  { apply (ac3_loop_invariant (λ s, shrinks s t)
      (λ s xi xj Hs Ha Hi, revise_keeps_solution s t xi xj Hs Ha Hgrid Hi)
      _ _ _ _ _ Hwf (λ a Ha, Ha) Hsh Hloop). }
  destruct fin.
  - unfold ac3_exit_of, ac3_run. rewrite (bind_ok _ _ _ _ _ Hloop).
    rewrite (bind_ok _ _ _ _ _
      (all_singletons_ok all_cells s' Hwf' Forall_valid_all_cells)).
    destruct (bool_decide _); eexists _, _; (split; [done|by split]).
  - exfalso. destruct Hres as (c & Hc & Hempty & _).
    destruct (valid_grid_cell t c Hgrid Hc) as (v & Hv & _).
    specialize (Hsh' c v). rewrite Hv, Hempty in Hsh'.
    apply (not_elem_of_empty (C := Domain) v), Hsh'. by apply elem_of_singleton.
Qed.

(** X5 — A valid solved grid goes through [ac3] unchanged with the result
    true; a grid of digits 1-9 with every cell assigned that is not valid
    makes [ac3] return false. *)
Theorem ac3_checks_assigned_grids (s : Store) :
  wf_store s →
  (valid_grid s → ac3 s = Ok (true, s)) ∧
  (all_assigned s → digits_only s → ¬ valid_grid s →
    ∃ s', ac3 s = Ok (false, s')).
Proof.
  intros Hwf. split.
  - intros Hgrid. unfold ac3.
    rewrite (bind_ok _ _ _ _ _ (ac3_exit_of_stable s Hwf
      (λ a, valid_grid_stable s a Hgrid))).
    rewrite bool_decide_eq_true_2; [done|].
    apply Forall_forall. intros c Hc%elem_of_all_cells.
    destruct (valid_grid_cell s c Hgrid Hc) as (v & -> & _). apply size_singleton.
  - intros Hall Hdigits Hbad.
    destruct (ac3_sound s Hwf Hdigits) as (b & s' & Hrun & Htrue).
    destruct (ac3_ok s Hwf) as (b' & s'' & Hrun' & _ & Hsh).
    rewrite Hrun in Hrun'. injection Hrun' as <- <-.
    exists s'. destruct b; [|done]. exfalso. apply Hbad.
    destruct (Htrue eq_refl) as [Hall' Hgrid].
    apply (valid_grid_ext s' s); [|done]. intros c Hc.
    apply set_subseteq_size_eq; [apply Hsh|].
    by rewrite (Hall c Hc), (Hall' c Hc).
Qed.

(** C4, as amended — AC-3 output contract.  [ac3] returns a boolean.  It is
    true exactly when the queue emptied and every domain has one value.  It
    is false both when a revision emptied a domain, the call returning at
    that point, and when the queue emptied with some domain not reduced to
    one value (to several values, when no domain was empty on entry): the
    value returned does not tell these two apart, both occur, and [main]
    runs [backtrack] on the store [ac3] left after either.  The revision
    that ends the call is the first to take the last candidate of a cell,
    which happens exactly when the store is not [propagable]; when the
    queue empties the store is the largest consistent one below the store
    given. *)
Theorem ac3_outcomes (s : Store) :
  wf_store s →
  ∃ e s', ac3_exit_of s = Ok (e, s') ∧ ac3 s = Ok (ac3_result e, s') ∧
    (ac3_result e = true ↔ e = ExitSolved) ∧
    match e with
    | ExitSolved => ∀ c, valid_cell c → size (dom s' c) = 1
    | ExitEmptyDomain => ∃ c, valid_cell c ∧ dom s' c = ∅ ∧ dom s c ≠ ∅
    | ExitNotSolved =>
        (∃ c, valid_cell c ∧ size (dom s' c) ≠ 1) ∧
        ((∀ c, valid_cell c → dom s c ≠ ∅) →
         ∃ c, valid_cell c ∧ 1 < size (dom s' c))
    end ∧
    (e = ExitEmptyDomain ↔ ¬ propagable s) ∧
    (e = ExitEmptyDomain →
      ∃ cur xi xj, (xi, xj) ∈ get_all_arcs ∧ shrinks s cur ∧
        (∀ c, dom s c ≠ ∅ → dom cur c ≠ ∅) ∧
        revise xi xj cur = Ok (true, s') ∧ dom s' xi = ∅) ∧
    (e ≠ ExitEmptyDomain →
      consistent s' ∧ shrinks s s' ∧
      ∀ t, consistent t → shrinks s t → (∀ c, dom s c ≠ ∅ → dom t c ≠ ∅) →
        shrinks s' t) ∧
    (if ac3_result e then main s = Ok (SolvedByAC3, s')
     else ∃ found s'', backtrack s' = Ok (found, s'') ∧
       main s =
         Ok (if found : bool then SolvedByBacktracking else NoSolution, s'')) ∧
    (∃ s1 s1' s2 s2', wf_store s1 ∧ wf_store s2 ∧
      ac3_exit_of s1 = Ok (ExitEmptyDomain, s1') ∧ ac3 s1 = Ok (false, s1') ∧
      ac3_exit_of s2 = Ok (ExitNotSolved, s2') ∧ ac3 s2 = Ok (false, s2')).
Proof.
  intros Hwf.
  destruct (ac3_exit_of_spec s Hwf) as (e & s' & Hrun & Hwf' & Hsh & He).
  assert (ac3 s = Ok (ac3_result e, s')) as Hac3.
  { unfold ac3. by rewrite (bind_ok _ _ _ _ _ Hrun). }
  exists e, s'. split; [done|]. split; [done|]. split; [by destruct e|].
  split.
  { destruct e; [done|by destruct He|].
    destruct He as (_ & Hkeep & c & Hc & Hsize). split; [by exists c|].
    intros Hne. exists c. split; [done|].
    assert (size (dom s' c) ≠ 0); [|lia].
    intros Hz%size_empty_iff%leibniz_equiv. by apply (Hkeep c (Hne c Hc)). }
  split.
  { split.
    - intros -> (t & _ & Hcons & Hbelow & Hkeep).
      by destruct (ac3_above_consistent s t _ s' Hwf Hcons Hbelow Hkeep Hrun).
    - intros Hno. destruct e; [done| |]; exfalso; apply Hno; exists s';
        by destruct (ac3_exit_consistent s _ s' Hwf Hrun) as (? & ? & ? & ? & _). }
  split.
  { intros ->. destruct (ac3_exit_of_loop s _ s' Hwf Hrun) as (fin & Hloop & Hfin).
    rewrite (proj2 Hfin eq_refl) in Hloop.
    destruct (ac3_loop_emptied s _ _ _ _ Hwf (λ a Ha, Ha) (shrinks_refl s)
      (λ c Hc, Hc) Hloop) as (cur & xi & xj & Harc & _ & Hcur & Hkeep & Hrev & Hxi).
    by exists cur, xi, xj. }
  split.
  { intros Hexit.
    destruct (ac3_exit_consistent s e s' Hwf Hrun Hexit) as (_ & Hcons & _).
    split; [done|]. split; [done|]. intros t Ht Hbelow Hkeep.
    by destruct (ac3_above_consistent s t e s' Hwf Ht Hbelow Hkeep Hrun). }
  split.
  { unfold main. rewrite (bind_ok _ _ _ _ _ Hac3).
    destruct (ac3_result e); [done|].
    destruct (backtrack_spec s' Hwf') as (found & s'' & Hback & _).
    exists found, s''. split; [done|]. rewrite (bind_ok _ _ _ _ _ Hback).
    by destruct found. }
  destruct ac3_all_ones as (xi & _ & Hones).
  exists (initial_store all_ones), (upd (initial_store all_ones) xi ∅),
    (initial_store blank), (initial_store blank).
  split; [by_evaluation|]. split; [by_evaluation|].
  split; [done|]. split; [unfold ac3; by rewrite (bind_ok _ _ _ _ _ Hones)|].
  split; [apply ac3_blank|]. unfold ac3. by rewrite (bind_ok _ _ _ _ _ ac3_blank).
Qed.

End more_ac3.

(** ** The order of iteration *)

Lemma ac3_order_step (o1 o2 : SetOrder) (i1 i2 : NeighborIndex) (s : Store)
    (e1 e2 : ac3_exit) (s1 s2 : Store) :
  wf_store s →
  @ac3_exit_of o1 i1 s = Ok (e1, s1) → @ac3_exit_of o2 i2 s = Ok (e2, s2) →
  e1 ≠ ExitEmptyDomain → e2 = e1 ∧ s2 = s1.
Proof.
  intros Hwf Hrun1 Hrun2 Hexit1.
  destruct (@ac3_exit_consistent o1 i1 s e1 s1 Hwf Hrun1 Hexit1)
    as (Hwf1 & Hcons1 & Hsh1 & Hkeep1 & Hsolved1).
  destruct (@ac3_above_consistent o2 i2 s s1 e2 s2 Hwf Hcons1 Hsh1 Hkeep1 Hrun2)
    as [Hexit2 Hbelow2].
  destruct (@ac3_exit_consistent o2 i2 s e2 s2 Hwf Hrun2 Hexit2)
    as (Hwf2 & Hcons2 & Hsh2 & Hkeep2 & Hsolved2).
  destruct (@ac3_above_consistent o1 i1 s s2 e1 s1 Hwf Hcons2 Hsh2 Hkeep2 Hrun1)
    as [_ Hbelow1].
  assert (s2 = s1) as ->.
  { apply store_ext; [done..|]. intros c _. apply set_eq. intros x.
    split; [apply Hbelow1|apply Hbelow2]. }
  split; [|done].
  destruct e1; [done| |]; (destruct e2; [done| |]); try done.
  - by apply Hsolved2, Hsolved1.
  - symmetry. by apply Hsolved1, Hsolved2.
Qed.

(** X6 — The exit [ac3] takes does not depend on the order in which sets
    are iterated, neighbors are listed and arcs are queued; nor does the
    store it leaves, unless a revision emptied a domain. *)
Theorem ac3_order_independent (o1 o2 : SetOrder) (i1 i2 : NeighborIndex)
    (s : Store) :
  wf_store s →
  ∃ e s1 s2,
    @ac3_exit_of o1 i1 s = Ok (e, s1) ∧ @ac3_exit_of o2 i2 s = Ok (e, s2) ∧
    (e ≠ ExitEmptyDomain → s1 = s2).
Proof.
  intros Hwf.
  destruct (@ac3_exit_of_spec o1 i1 s Hwf) as (e1 & s1 & Hrun1 & _).
  destruct (@ac3_exit_of_spec o2 i2 s Hwf) as (e2 & s2 & Hrun2 & _).
  assert (e1 = ExitEmptyDomain ∨ e1 ≠ ExitEmptyDomain) as [->|Hexit1]
    by (destruct e1; auto).
  - assert (e2 = ExitEmptyDomain ∨ e2 ≠ ExitEmptyDomain) as [->|Hexit2]
      by (destruct e2; auto).
    + exists ExitEmptyDomain, s1, s2. by repeat split.
    + by destruct (ac3_order_step o2 o1 i2 i1 s e2 ExitEmptyDomain s2 s1
        Hwf Hrun2 Hrun1 Hexit2) as [<- _].
  - destruct (ac3_order_step o1 o2 i1 i2 s e1 e2 s1 s2 Hwf Hrun1 Hrun2 Hexit1)
      as [-> ->].
    exists e1, s1, s1. by repeat split.
Qed.

(** ** More on the search *)

Lemma conflict_iff (s : Store) (nbrs : list Cell) (v : Z) :
  ¬ conflict_free s nbrs v ↔ ∃ n, n ∈ nbrs ∧ dom s n = {[v]}.
Proof.
  unfold conflict_free. split.
  - intros Hc. apply not_Forall_Exists in Hc; [|intros n; apply _].
    apply Exists_exists in Hc as (n & Hn & Hc). exists n. split; [done|].
    simpl in Hc. apply dec_stable in Hc as [Hsize Hv].
    apply size_1_singleton in Hsize as [w Hw]. rewrite Hw in Hv.
    apply elem_of_singleton in Hv as ->. done.
  - intros (n & Hn & Hd) Hall. rewrite Forall_forall in Hall.
    apply (Hall n Hn). rewrite Hd.
    split; [apply size_singleton|by apply elem_of_singleton].
Qed.

Lemma print_cell_digit `{!SetOrder} (d : Domain) :
  (if decide (size d = 1) then default 0%Z (head (set_iter d)) else 0%Z) = digit d.
Proof.
  case_decide as Hsize.
  - apply size_1_singleton in Hsize as [w ->].
    by rewrite set_iter_singleton, digit_singleton.
  - unfold digit. destruct (elements d) as [|v [|w l]] eqn:Hd; [done| |done].
    exfalso. apply Hsize. unfold size, set_size. simpl. by rewrite Hd.
Qed.

Section more_search.
Context `{!SetOrder, !NeighborIndex}.

Lemma ac3_valid_grid (s : Store) :
  wf_store s → valid_grid s → ac3 s = Ok (true, s).
Proof.
  intros Hwf Hgrid. unfold ac3.
  rewrite (bind_ok _ _ _ _ _ (ac3_exit_of_stable s Hwf
    (λ a, valid_grid_stable s a Hgrid))).
  rewrite bool_decide_eq_true_2; [done|].
  apply Forall_forall. intros c Hc%elem_of_all_cells.
  destruct (valid_grid_cell s c Hgrid Hc) as (v & -> & _). apply size_singleton.
Qed.

(** Every value of the list is held by an assigned neighbor: the loop
    tries none and leaves the store as it is. *)
Lemma try_values_all_rejected (recurse : M bool) (c : Cell) (values : list Z)
    (s : Store) :
  wf_store s → valid_cell c →
  (∀ v, v ∈ values → ¬ conflict_free s (neighbors c) v) →
  try_values recurse c values s = Ok (false, s).
Proof.
  intros Hwf Hc. induction values as [|v rest IH]; intros Hbad; [done|].
  cbn [try_values]. rewrite (bind_ok _ _ _ _ _ (is_valid_ok c v s Hwf Hc)).
  rewrite bool_decide_eq_false_2 by (apply Hbad; left).
  apply IH. intros w Hw. apply Hbad. by right.
Qed.

Lemma backtrack_settled (s : Store) :
  wf_store s → (∀ c, valid_cell c → size (dom s c) ≤ 1) →
  backtrack s = Ok (true, s).
Proof.
  intros Hwf Hall.
  destruct (find_empty_cell_spec s Hwf) as (r & Hfind & Hr).
  destruct r as [c|].
  { exfalso. destruct Hr as (pre & post & Hcells & Hopen & _).
    assert (valid_cell c) as Hc.
    { apply elem_of_all_cells. rewrite Hcells. apply elem_of_app. right. left. }
    specialize (Hall c Hc). unfold unassigned in Hopen. lia. }
  unfold backtrack. cbn [backtrack_fuel]. by rewrite (bind_ok _ _ _ _ _ Hfind).
Qed.

(** X7 — A second call of [revise] on the same pair of cells removes
    nothing and returns false. *)
Theorem revise_twice (xi xj : Cell) (s : Store) :
  wf_store s → valid_cell xi → valid_cell xj →
  ∃ b s', revise xi xj s = Ok (b, s') ∧ revise xi xj s' = Ok (false, s').
Proof.
  intros Hwf Hi Hj.
  exists (bool_decide (revisable s xi xj)), (revise_store s xi xj).
  split; [by apply revise_ok|].
  pose proof (revise_store_wf s xi xj Hwf) as Hwf'.
  assert (¬ revisable (revise_store s xi xj) xi xj) as Hst.
  { unfold revisable. rewrite !dom_revise_store by done. intros [Hsize Hmeet].
    destruct (decide (size (dom s xj) = 1)) as [Hone|Hone].
    - rewrite (decide_True (P := xi = xi ∧ _)) in Hmeet by done.
      destruct (decide (xj = xi)) as [->|Hne].
      + rewrite decide_True in Hsize by done.
        rewrite difference_diag_L, size_empty in Hsize. lia.
      + rewrite decide_False in Hmeet by tauto. apply Hmeet.
        apply set_eq. intros x. rewrite elem_of_intersection, elem_of_difference.
        split; [tauto|by intros ?%not_elem_of_empty].
    - rewrite decide_False in Hsize by tauto. done. }
  rewrite (revise_ok xi xj _ Hwf' Hi Hj), bool_decide_eq_false_2 by done.
  by rewrite revise_store_stable.
Qed.

(** X8 — [is_valid] leaves the store as it is and returns false exactly
    when some neighbor of the cell is assigned the value. *)
Theorem is_valid_rejects_assigned_values (c : Cell) (v : Z) (s : Store) :
  wf_store s → valid_cell c →
  ∃ b, is_valid c v s = Ok (b, s) ∧
    (b = false ↔ ∃ n, n ∈ neighbors c ∧ dom s n = {[v]}).
Proof.
  intros Hwf Hc. exists (bool_decide (conflict_free s (neighbors c) v)).
  split; [by apply is_valid_ok|].
  rewrite <-conflict_iff. apply bool_decide_eq_false.
Qed.

(** X9 — After [is_valid] accepted a value, assigning it and calling
    [forward_check] always returns success: the value is taken from every
    neighbor, none of which is left without a candidate if it had one. *)
Theorem forward_check_after_is_valid (c : Cell) (v : Z) (s : Store) :
  wf_store s → valid_cell c → is_valid c v s = Ok (true, s) →
  ∃ removed s2,
    (set_domain c {[v]};; forward_check c v) s = Ok ((true, removed), s2) ∧
    dom s2 c = {[v]} ∧
    (∀ x, x ≠ c →
      dom s2 x = if decide (x ∈ neighbors c) then dom s x ∖ {[v]} else dom s x) ∧
    (∀ x, dom s x ≠ ∅ → dom s2 x ≠ ∅).
Proof.
  intros Hwf Hc Hvalid.
  rewrite (is_valid_ok c v s Hwf Hc) in Hvalid.
  assert (conflict_free s (neighbors c) v) as Hfree.
  { apply (bool_decide_eq_true_1 (conflict_free s (neighbors c) v)). congruence. }
  destruct (assign_forward_check c v s Hwf Hc Hfree)
    as (removed & s2 & Hrun & Hwf2 & _ & Hown & Hrem & _).
  pose proof (upd_wf s c {[v]} Hwf) as Hwf1.
  destruct (forward_check_spec c v _ Hwf1 Hc)
    as (ok & removed' & s2' & Hrun' & _ & _ & Hdom & scanned & Hscan & Hok).
  rewrite Hrun in Hrun'. injection Hrun' as <- <- <-.
  destruct Hok as [-> _].
  exists removed, s2.
  split; [by rewrite (bind_ok _ _ _ _ _ (set_domain_ok s c {[v]} Hwf Hc))|].
  split; [done|].
  assert (∀ x, x ≠ c →
    dom s2 x = if decide (x ∈ neighbors c) then dom s x ∖ {[v]} else dom s x)
    as Hothers.
  { intros x Hx. rewrite Hdom, dom_upd_ne by done.
    destruct (decide ((x, v) ∈ removed)) as [Hin|Hout].
    - apply Hscan in Hin as (_ & Hn & _). simpl in Hn. by rewrite decide_True.
    - case_decide as Hn; [|done]. apply set_eq. intros w.
      rewrite elem_of_difference, elem_of_singleton. split; [|tauto].
      intros Hw. split; [done|]. intros ->. apply Hout, Hscan. simpl.
      by rewrite dom_upd_ne by done. }
  split; [done|]. intros x Hne.
  destruct (decide (x = c)) as [->|Hx].
  { rewrite Hown. apply (non_empty_singleton_L (C := Domain)). }
  rewrite Hdom, dom_upd_ne by done.
  destruct (decide ((x, v) ∈ removed)) as [Hin|Hout]; [|done].
  apply difference_singleton_nonempty. by apply (Hrem x v Hin).
Qed.

(** X10 — [restore_domains], given records of cells of the grid, puts
    every recorded value back into the domain of its cell and changes
    nothing else, whatever the order of the records. *)
Theorem restore_domains_adds_record (removed : list (Cell * Z)) (s : Store) :
  wf_store s → Forall (λ p, valid_cell p.1) removed →
  ∃ s', restore_domains removed s = Ok ((), s') ∧ wf_store s' ∧
    (∀ n w, w ∈ dom s' n ↔ w ∈ dom s n ∨ (n, w) ∈ removed) ∧
    (∀ removed', removed' ≡ₚ removed →
      restore_domains removed' s = Ok ((), s')).
Proof.
  intros Hwf Hvalid.
  destruct (restore_domains_spec removed s Hwf Hvalid) as (s' & Hrun & Hwf' & Hdom).
  exists s'. split; [done|]. split; [done|]. split; [done|].
  intros removed' Hperm.
  assert (Forall (λ p, valid_cell p.1) removed') as Hvalid' by (by rewrite Hperm).
  destruct (restore_domains_spec removed' s Hwf Hvalid')
    as (s2 & Hrun2 & Hwf2 & Hdom2).
  rewrite Hrun2. f_equal. f_equal. apply store_ext; [done..|].
  intros c _. apply set_eq. intros w. rewrite Hdom, Hdom2.
  by rewrite Hperm.
Qed.

(** X11 — [backtrack] only removes candidates, and only from cells that
    had more than one; when it returns true no cell has more than one
    candidate left, and every cell has exactly one if none was empty at the
    start. *)
Theorem backtrack_narrows_open_cells (s : Store) :
  wf_store s →
  ∃ b s', backtrack s = Ok (b, s') ∧ wf_store s' ∧ shrinks s s' ∧
    (∀ c, size (dom s c) ≤ 1 → dom s' c = dom s c) ∧
    (b = true → ∀ c, size (dom s' c) ≤ 1) ∧
    (b = true → (∀ c, valid_cell c → dom s c ≠ ∅) → all_assigned s').
Proof.
  intros Hwf.
  destruct (backtrack_spec s Hwf) as (b & s' & Hrun & Hframe & Htrue).
  destruct Hframe as (Hwf' & Hsh & Hsame & Hkeep).
  exists b, s'. split; [done|]. split; [done|]. split; [done|].
  split; [|split].
  - intros c Hc. apply Hsame. unfold unassigned. lia.
  - intros Hb c. specialize (Htrue Hb c). unfold unassigned in Htrue. lia.
  - intros Hb Hne c Hc. specialize (Htrue Hb c). unfold unassigned in Htrue.
    assert (size (dom s' c) ≠ 0); [|lia].
    intros Hzero. apply size_empty_inv in Hzero.
    apply (Hkeep c (Hne c Hc)). by apply leibniz_equiv.
Qed.

(** X12 — With no cell of more than one candidate [backtrack] returns true
    at once and leaves the store as it is, whatever the domains hold. *)
Theorem backtrack_without_open_cell (s : Store) :
  wf_store s → (∀ c, valid_cell c → size (dom s c) ≤ 1) →
  backtrack s = Ok (true, s).
Proof. apply backtrack_settled. Qed.

(** X13 — When every candidate of the cell [find_empty_cell] selects is
    the value of an assigned neighbor, [backtrack] returns false and leaves
    the store as it is. *)
Theorem backtrack_fails_on_cornered_cell (s : Store) (c : Cell) :
  wf_store s → find_empty_cell s = Ok (Some c, s) →
  (∀ v, v ∈ dom s c → ∃ n, n ∈ neighbors c ∧ dom s n = {[v]}) →
  backtrack s = Ok (false, s).
Proof.
  intros Hwf Hfind Hbad.
  destruct (find_empty_cell_spec s Hwf) as (r & Hfind' & Hr).
  rewrite Hfind in Hfind'. injection Hfind' as <-.
  destruct Hr as (pre & post & Hcells & _).
  assert (valid_cell c) as Hc.
  { apply elem_of_all_cells. rewrite Hcells. apply elem_of_app. right. left. }
  unfold backtrack. cbn [backtrack_fuel]. rewrite (bind_ok _ _ _ _ _ Hfind).
  rewrite (bind_ok _ _ _ _ _ (order_domain_values_ok c s Hwf Hc)).
  apply try_values_all_rejected; [done..|].
  intros v Hv. apply conflict_iff, Hbad. by apply lcv_order_elem.
Qed.

(** X14 — [print_solution] leaves the store as it is and prints nine rows;
    the entry of a cell is its digit when the cell has one candidate and 0
    otherwise; the rows printed for a valid grid each hold the digits 1-9
    once. *)
Theorem print_solution_shows_digits (s : Store) :
  wf_store s →
  ∃ rows, print_solution s = Ok (rows, s) ∧ length rows = 9 ∧
    (∀ r k, valid_cell (r, k) →
      rows !! r ≫= (λ row, row !! k) = Some (digit (dom s (r, k)))) ∧
    (valid_grid s → Forall (λ row, row ≡ₚ digits_1_9) rows).
Proof.
  intros Hwf. exists (print_row <$> s). split; [done|].
  split; [rewrite length_fmap; by destruct Hwf|].
  assert (∀ r k, valid_cell (r, k) →
    (print_row <$> s) !! r ≫= (λ row, row !! k) = Some (digit (dom s (r, k))))
    as Hcell.
  { intros r k Hc. destruct (wf_lookup s (r, k) Hwf Hc) as (row & Hrow & _ & Hd).
    simpl in Hrow, Hd. rewrite list_lookup_fmap, Hrow. simpl.
    unfold print_row. rewrite list_lookup_fmap, Hd. simpl.
    by rewrite print_cell_digit. }
  split; [done|]. intros Hgrid. apply Forall_forall. intros row Hin.
  apply list_elem_of_lookup in Hin as [r Hr].
  assert (r < 9) as Hlt.
  { apply lookup_lt_Some in Hr. rewrite length_fmap in Hr. destruct Hwf. lia. }
  assert (length row = 9) as Hlen.
  { rewrite list_lookup_fmap in Hr. destruct (s !! r) as [row0|] eqn:Hrow0; [|done].
    injection Hr as <-. unfold print_row. rewrite length_fmap.
    destruct Hwf as [_ Hrows]. rewrite Forall_forall in Hrows.
    apply Hrows. by eapply list_elem_of_lookup_2. }
  assert (row = (λ c, digit (dom s c)) <$> row_cells r) as ->.
  { apply list_eq. intros k. unfold row_cells.
    rewrite list_lookup_fmap, list_lookup_fmap.
    destruct (decide (k < 9)) as [Hk|Hk].
    - specialize (Hcell r k (conj Hlt Hk)). rewrite Hr in Hcell. simpl in Hcell.
      rewrite Hcell, lookup_seq_lt by done. done.
    - rewrite lookup_seq_ge by lia. apply lookup_ge_None. lia. }
  unfold valid_grid in Hgrid. rewrite Forall_forall in Hgrid. apply Hgrid.
  unfold units. apply elem_of_app. left.
  apply list_elem_of_fmap. exists r. split; [done|]. apply elem_of_seq. lia.
Qed.

(** X15 — [main] returns an outcome on every store and only removes
    candidates.  "Solved by AC-3" comes with a valid grid when the store
    held digits 1-9 only; "solved with backtracking" says no more than that
    no cell has several candidates left; a valid solved grid is reported as
    solved by AC-3 and left as it is. *)
Theorem main_reports (s : Store) :
  wf_store s →
  ∃ o s', main s = Ok (o, s') ∧ wf_store s' ∧ shrinks s s' ∧
    (o = SolvedByAC3 → digits_only s → all_assigned s' ∧ valid_grid s') ∧
    (o = SolvedByBacktracking → ∀ c, size (dom s' c) ≤ 1) ∧
    (valid_grid s → o = SolvedByAC3 ∧ s' = s).
Proof.
  intros Hwf.
  destruct (ac3_ok s Hwf) as (b & s1 & Hac3 & Hwf1 & Hsh1).
  destruct b.
  - exists SolvedByAC3, s1. unfold main. rewrite (bind_ok _ _ _ _ _ Hac3).
    split; [done|]. split; [done|]. split; [done|]. split; [|split; [done|]].
    + intros _ Hdigits.
      destruct (ac3_sound s Hwf Hdigits) as (b' & s' & Hrun & Htrue).
      rewrite Hac3 in Hrun. injection Hrun as <- <-. by apply Htrue.
    + intros Hgrid. rewrite (ac3_valid_grid s Hwf Hgrid) in Hac3.
      by injection Hac3 as ->.
  - destruct (backtrack_spec s1 Hwf1) as (b2 & s2 & Hback & Hframe & Htrue).
    destruct Hframe as (Hwf2 & Hsh2 & _).
    exists (if b2 then SolvedByBacktracking else NoSolution), s2.
    unfold main. rewrite (bind_ok _ _ _ _ _ Hac3), (bind_ok _ _ _ _ _ Hback).
    split; [by destruct b2|]. split; [done|].
    split; [by apply (shrinks_trans _ s1)|].
    split; [by destruct b2|]. split.
    + intros Ho c. destruct b2; [|done]. specialize (Htrue eq_refl c).
      unfold unassigned in Htrue. lia.
    + intros Hgrid. rewrite (ac3_valid_grid s Hwf Hgrid) in Hac3. done.
Qed.

(** X16 — [forward_check] returns failure exactly when some neighbor is
    assigned the value; it takes values from neighbors only, removes no
    other value than the one given, and records no removal twice. *)
Theorem forward_check_fails_iff (c : Cell) (v : Z) (s : Store) :
  wf_store s → valid_cell c →
  ∃ ok removed s',
    forward_check c v s = Ok ((ok, removed), s') ∧
    (ok = false ↔ ∃ n, n ∈ neighbors c ∧ dom s n = {[v]}) ∧
    (∀ x, x ∉ neighbors c → dom s' x = dom s x) ∧
    dom s' c = dom s c ∧
    (∀ x, dom s x ∖ {[v]} ⊆ dom s' x ∧ dom s' x ⊆ dom s x) ∧
    NoDup removed.
Proof.
  intros Hwf Hc.
  destruct (forward_check_spec c v s Hwf Hc)
    as (ok & removed & s' & Hrun & _ & Hnd & Hdom & scanned & _ & Hok).
  pose proof (removed_neighbors c v s ok removed s' Hwf Hc Hrun) as Hrem.
  assert (∀ x, x ∉ neighbors c → dom s' x = dom s x) as Hout.
  { intros x Hx. rewrite Hdom. case_decide as Hin; [|done].
    exfalso. apply Hx. by apply (Hrem (x, v) Hin). }
  exists ok, removed, s'. split; [done|]. split; [|split; [done|split; [|split]]].
  - destruct ok.
    + destruct Hok as [_ Hnone]. split; [done|].
      intros (n & Hn & Hd). by destruct (Hnone n Hn).
    + destruct Hok as (pre & n & post & Hnbrs & _ & Hd & _). split; [|done].
      intros _. exists n. split; [|done]. rewrite Hnbrs.
      apply elem_of_app. right. left.
  - apply Hout. by apply neighbors_irrefl.
  - intros x. rewrite Hdom.
    case_decide; (split; [|try done]); try done;
      intros w Hw; by apply elem_of_difference in Hw as [? _].
  - done.
Qed.

(** X17 — A successful [backtrack] is not undone by a second call, which
    returns true and leaves the store as it is. *)
Theorem backtrack_twice (s : Store) :
  wf_store s →
  ∃ b s', backtrack s = Ok (b, s') ∧
    (b = true → backtrack s' = Ok (true, s')).
Proof.
  intros Hwf.
  destruct (backtrack_spec s Hwf) as (b & s' & Hrun & Hframe & Htrue).
  exists b, s'. split; [done|]. intros Hb.
  apply backtrack_settled; [by destruct Hframe|].
  intros c _. specialize (Htrue Hb c). unfold unassigned in Htrue. lia.
Qed.

End more_search.

(** ** The further properties on concrete stores *)

Lemma digits_only_intro (s : Store) :
  wf_store s →
  Forall (λ c, Forall (λ v, (1 ≤ v ≤ 9)%Z) (elements (dom s c))) all_cells →
  digits_only s.
Proof.
  intros Hwf Hall c v Hv. destruct (decide (valid_cell c)) as [Hc|Hc].
  - rewrite Forall_forall in Hall. apply elem_of_all_cells in Hc.
    specialize (Hall c Hc). rewrite Forall_forall in Hall.
    apply Hall. by apply elem_of_elements.
  - rewrite dom_outside in Hv by done. by apply not_elem_of_empty in Hv.
Qed.

Lemma shrinks_intro (s t : Store) :
  wf_store t →
  Forall (λ c, Forall (λ v, v ∈ dom s c) (elements (dom t c))) all_cells →
  shrinks s t.
Proof.
  intros Hwf Hall c v Hv. destruct (decide (valid_cell c)) as [Hc|Hc].
  - rewrite Forall_forall in Hall. apply elem_of_all_cells in Hc.
    specialize (Hall c Hc). rewrite Forall_forall in Hall.
    apply Hall. by apply elem_of_elements.
  - rewrite dom_outside in Hv by done. by apply not_elem_of_empty in Hv.
Qed.

Lemma digits_only_easy : digits_only (initial_store easy).
Proof.
  apply digits_only_intro; [by_evaluation|].
  by_evaluation_at (initial_store easy).
Qed.

Lemma ac3_true_is_solution_witness :
  wf_store (initial_store easy) ∧ digits_only (initial_store easy) ∧
  ∃ s', ac3 (initial_store easy) = Ok (true, s') ∧
    shrinks (initial_store easy) s' ∧ valid_grid s'.
Proof.
  assert (wf_store (initial_store easy)) as Hwf by by_evaluation.
  split; [exact Hwf|]. split; [exact digits_only_easy|].
  destruct (ac3_true_is_solution (initial_store easy) Hwf digits_only_easy)
    as (b & s' & Hrun & Htrue).
  assert (value_of (ac3 (initial_store easy)) = Some true) as Hval
    by (vm_compute; reflexivity).
  rewrite Hrun in Hval. injection Hval as ->.
  destruct (Htrue eq_refl) as (_ & Hsh & _ & Hgrid).
  exists s'. exact (conj Hrun (conj Hsh Hgrid)).
Defined.

Lemma ac3_quiescent_witness :
  wf_store (initial_store seventeen) ∧
  ∃ e s', ac3_exit_of (initial_store seventeen) = Ok (e, s') ∧
    (e ≠ ExitEmptyDomain → ac3_exit_of s' = Ok (e, s')).
Proof.
  split; [by_evaluation|].
  destruct (ac3_quiescent (initial_store seventeen)) as (e & s' & Hrun & Hq);
    [by_evaluation|].
  exists e, s'. split; [exact Hrun|]. intros He. exact (proj2 (Hq He)).
Defined.

Lemma ac3_keeps_assigned_cells_witness :
  wf_store (initial_store easy) ∧
  ∃ e s', ac3_exit_of (initial_store easy) = Ok (e, s') ∧
    (e ≠ ExitEmptyDomain →
      ∀ c v, dom (initial_store easy) c = {[v]} → dom s' c = {[v]}).
Proof.
  split; [by_evaluation|].
  apply ac3_keeps_assigned_cells. by_evaluation.
Defined.

Lemma ac3_keeps_solutions_witness :
  wf_store (initial_store easy) ∧ valid_grid (initial_store solved) ∧
  shrinks (initial_store easy) (initial_store solved) ∧
  ∃ e s', ac3_exit_of (initial_store easy) = Ok (e, s') ∧
    e ≠ ExitEmptyDomain ∧ shrinks s' (initial_store solved).
Proof.
  assert (shrinks (initial_store easy) (initial_store solved)) as Hsh.
  { apply shrinks_intro; by_evaluation. }
  split; [by_evaluation|]. split; [by_evaluation|]. split; [exact Hsh|].
  apply ac3_keeps_solutions; [by_evaluation..|exact Hsh].
Defined.

Lemma ac3_checks_assigned_grids_witness :
  wf_store (initial_store solved) ∧ valid_grid (initial_store solved) ∧
  ac3 (initial_store solved) = Ok (true, initial_store solved).
Proof.
  assert (wf_store (initial_store solved)) as Hwf by by_evaluation.
  assert (valid_grid (initial_store solved)) as Hgrid by by_evaluation.
  split; [exact Hwf|]. split; [exact Hgrid|].
  exact (proj1 (ac3_checks_assigned_grids (initial_store solved) Hwf) Hgrid).
Defined.

Lemma ac3_order_independent_witness :
  wf_store (initial_store seventeen) ∧
  ∃ e s1 s2,
    @ac3_exit_of ascending_order row_major_index (initial_store seventeen)
      = Ok (e, s1) ∧
    @ac3_exit_of descending_order reversed_index (initial_store seventeen)
      = Ok (e, s2) ∧
    (e ≠ ExitEmptyDomain → s1 = s2).
Proof.
  split; [by_evaluation|].
  apply ac3_order_independent. by_evaluation.
Defined.

Lemma revise_twice_witness :
  wf_store (initial_store easy) ∧ valid_cell (0, 2) ∧ valid_cell (0, 0) ∧
  ∃ b s', revise (0, 2) (0, 0) (initial_store easy) = Ok (b, s') ∧
    revise (0, 2) (0, 0) s' = Ok (false, s').
Proof.
  split; [by_evaluation|]. split; [by_evaluation|]. split; [by_evaluation|].
  apply revise_twice; by_evaluation.
Defined.

Lemma is_valid_rejects_assigned_values_witness :
  wf_store dead_end ∧ valid_cell (0, 0) ∧
  ∃ b, is_valid (0, 0) 3 dead_end = Ok (b, dead_end) ∧
    (b = false ↔ ∃ n, n ∈ neighbors (0, 0) ∧ dom dead_end n = {[3]}%Z).
Proof.
  split; [by_evaluation|]. split; [by_evaluation|].
  apply is_valid_rejects_assigned_values; by_evaluation.
Defined.

Lemma forward_check_after_is_valid_witness :
  wf_store dead_end ∧ valid_cell (0, 0) ∧
  is_valid (0, 0) 5 dead_end = Ok (true, dead_end) ∧
  ∃ removed s2,
    (set_domain (0, 0) {[5%Z]};; forward_check (0, 0) 5) dead_end
      = Ok ((true, removed), s2) ∧
    dom s2 (0, 0) = {[5%Z]}.
Proof.
  assert (is_valid (0, 0) 5 dead_end = Ok (true, dead_end)) as Hvalid
    by (vm_compute; reflexivity).
  split; [by_evaluation|]. split; [by_evaluation|]. split; [exact Hvalid|].
  destruct (forward_check_after_is_valid (0, 0) 5 dead_end)
    as (removed & s2 & Hrun & Hown & _); [by_evaluation..|exact Hvalid|].
  exists removed, s2. exact (conj Hrun Hown).
Defined.

Lemma restore_domains_adds_record_witness :
  wf_store (initial_store solved) ∧
  Forall (λ p : Cell * Z, valid_cell p.1) [((0, 0), 3%Z); ((0, 1), 5%Z)] ∧
  ∃ s', restore_domains [((0, 0), 3%Z); ((0, 1), 5%Z)] (initial_store solved)
      = Ok ((), s') ∧
    (∀ n w, w ∈ dom s' n ↔
      w ∈ dom (initial_store solved) n ∨
      (n, w) ∈ [((0, 0), 3%Z); ((0, 1), 5%Z)]) ∧
    restore_domains [((0, 1), 5%Z); ((0, 0), 3%Z)] (initial_store solved)
      = Ok ((), s').
Proof.
  assert (wf_store (initial_store solved)) as Hwf by by_evaluation.
  assert (Forall (λ p : Cell * Z, valid_cell p.1)
    [((0, 0), 3%Z); ((0, 1), 5%Z)]) as Hvalid by by_evaluation.
  split; [exact Hwf|]. split; [exact Hvalid|].
  destruct (restore_domains_adds_record
      [((0, 0), 3%Z); ((0, 1), 5%Z)] (initial_store solved) Hwf Hvalid)
    as (s' & Hrun & _ & Hdom & Hperm).
  exists s'. split; [exact Hrun|]. split; [exact Hdom|].
  apply Hperm. apply perm_swap.
Defined.

Lemma backtrack_narrows_open_cells_witness :
  wf_store (initial_store seventeen) ∧
  ∃ b s', backtrack (initial_store seventeen) = Ok (b, s') ∧
    shrinks (initial_store seventeen) s' ∧
    ∀ c, size (dom (initial_store seventeen) c) ≤ 1 →
      dom s' c = dom (initial_store seventeen) c.
Proof.
  split; [by_evaluation|].
  destruct (backtrack_narrows_open_cells (initial_store seventeen))
    as (b & s' & Hrun & _ & Hsh & Hsame & _); [by_evaluation|].
  exists b, s'. exact (conj Hrun (conj Hsh Hsame)).
Defined.

Lemma backtrack_without_open_cell_witness :
  wf_store (initial_store all_ones) ∧
  (∀ c, valid_cell c → size (dom (initial_store all_ones) c) ≤ 1) ∧
  backtrack (initial_store all_ones) = Ok (true, initial_store all_ones).
Proof.
  assert (∀ c, valid_cell c → size (dom (initial_store all_ones) c) ≤ 1) as Hall.
  { intros c Hc%elem_of_all_cells. revert c Hc. apply Forall_forall.
    by_evaluation_at (initial_store all_ones). }
  split; [by_evaluation|]. split; [exact Hall|].
  apply backtrack_without_open_cell; [by_evaluation|exact Hall].
Defined.

Lemma backtrack_fails_on_cornered_cell_witness :
  wf_store cornered ∧ find_empty_cell cornered = Ok (Some (8, 8), cornered) ∧
  (∀ v, v ∈ dom cornered (8, 8) →
    ∃ n, n ∈ neighbors (8, 8) ∧ dom cornered n = {[v]}) ∧
  backtrack cornered = Ok (false, cornered).
Proof.
  assert (find_empty_cell cornered = Ok (Some (8, 8), cornered)) as Hfind
    by (vm_compute; reflexivity).
  assert (∀ v, v ∈ dom cornered (8, 8) →
    ∃ n, n ∈ neighbors (8, 8) ∧ dom cornered n = {[v]}) as Hbad.
  { intros v Hv.
    assert (dom cornered (8, 8) = {[1; 2]}%Z) as Hdom by (vm_compute; reflexivity).
    rewrite Hdom in Hv. apply elem_of_union in Hv as [Hv|Hv];
      apply elem_of_singleton in Hv as ->.
    - exists (8, 6). split; [by_evaluation|vm_compute; reflexivity].
    - exists (8, 3). split; [by_evaluation|vm_compute; reflexivity]. }
  split; [by_evaluation|]. split; [exact Hfind|]. split; [exact Hbad|].
  apply (backtrack_fails_on_cornered_cell cornered (8, 8));
    [by_evaluation|exact Hfind|exact Hbad].
Defined.

Lemma print_solution_shows_digits_witness :
  wf_store (initial_store solved) ∧
  ∃ rows, print_solution (initial_store solved)
      = Ok (rows, initial_store solved) ∧
    length rows = 9 ∧
    (valid_grid (initial_store solved) → Forall (λ row, row ≡ₚ digits_1_9) rows).
Proof.
  split; [by_evaluation|].
  destruct (print_solution_shows_digits (initial_store solved))
    as (rows & Hrun & Hlen & _ & Hrows); [by_evaluation|].
  exists rows. exact (conj Hrun (conj Hlen Hrows)).
Defined.

Lemma main_reports_witness :
  wf_store (initial_store seventeen) ∧
  ∃ o s', main (initial_store seventeen) = Ok (o, s') ∧
    shrinks (initial_store seventeen) s' ∧
    (o = SolvedByBacktracking → ∀ c, size (dom s' c) ≤ 1).
Proof.
  split; [by_evaluation|].
  destruct (main_reports (initial_store seventeen))
    as (o & s' & Hrun & _ & Hsh & _ & Hback & _); [by_evaluation|].
  exists o, s'. exact (conj Hrun (conj Hsh Hback)).
Defined.

Lemma forward_check_fails_iff_witness :
  wf_store (initial_store all_ones) ∧ valid_cell (0, 0) ∧
  ∃ ok removed s',
    forward_check (0, 0) 1 (initial_store all_ones) = Ok ((ok, removed), s') ∧
    (ok = false ↔
      ∃ n, n ∈ neighbors (0, 0) ∧ dom (initial_store all_ones) n = {[1]}%Z).
Proof.
  split; [by_evaluation|]. split; [by_evaluation|].
  destruct (forward_check_fails_iff (0, 0) 1 (initial_store all_ones))
    as (ok & removed & s' & Hrun & Hok & _); [by_evaluation..|].
  exists ok, removed, s'. exact (conj Hrun Hok).
Defined.

Lemma backtrack_twice_witness :
  wf_store (initial_store seventeen) ∧
  ∃ s', backtrack (initial_store seventeen) = Ok (true, s') ∧
    backtrack s' = Ok (true, s').
Proof.
  split; [by_evaluation|].
  destruct (backtrack_twice (initial_store seventeen))
    as (b & s' & Hrun & Htwice); [by_evaluation|].
  assert (value_of (backtrack (initial_store seventeen)) = Some true) as Hval
    by (vm_compute; reflexivity).
  rewrite Hrun in Hval. injection Hval as ->.
  exists s'. exact (conj Hrun (Htwice eq_refl)).
Defined.

Lemma ac3_outcomes_witness :
  wf_store (initial_store all_ones) ∧
  ∃ s' found s'',
    ac3_exit_of (initial_store all_ones) = Ok (ExitEmptyDomain, s') ∧
    ac3 (initial_store all_ones) = Ok (false, s') ∧
    ¬ propagable (initial_store all_ones) ∧
    backtrack s' = Ok (found, s'') ∧
    main (initial_store all_ones) =
      Ok (if found : bool then SolvedByBacktracking else NoSolution, s'').
Proof.
  split; [by_evaluation|].
  destruct (ac3_outcomes (initial_store all_ones))
    as (e & s' & Hexit & Hrun & _ & _ & Hiff & _ & _ & Hmain & _);
    [by_evaluation|].
  assert (value_of (ac3_exit_of (initial_store all_ones)) = Some ExitEmptyDomain)
    as Hval by (vm_compute; reflexivity).
  rewrite Hexit in Hval. injection Hval as ->.
  destruct Hmain as (found & s'' & Hback & Hmain).
  exists s', found, s''.
  exact (conj Hexit (conj Hrun (conj (proj1 Hiff eq_refl) (conj Hback Hmain)))).
Defined.
